(** * ortotool-gdal front end: job simulation, job list, layers, file sizes

    A shallow embedding of the TypeScript/React front end of ORTOTOOL:

    - the types (src/unnamed/part_000): [UploadedFile], [ProcessingJob],
      and [LayerConfig] of the types file;
    - [FileManager] (components/FileManager.tsx, first part):
      [formatFileSize], [handleDelete];
    - [MapViewer] (src/unnamed/part_002): [toggleLayerVisibility],
      [removeLayer], [handleFileSelect], [zoomToLayers], and what
      [loadFileData] and [addSelectedFilesToMap] do to the layers;
    - [UploadZone] (src/unnamed/part_003, first part): the kind [onDrop]
      gives a file;
    - [ProcessingPanel] (src/unnamed/part_003, second part):
      [canExecuteOperation], [handleExecute] and its two [setTimeout]
      callbacks;
    - [JobTracker] (components/FileManager.tsx, second part): [handleDelete],
      the statistics and the rows it renders;
    - [HomePage] (app/page.tsx): [handleFileUpload], [handleJobCreate], the
      tabs;
    - [MetadataViewer] (app/visualizacao/page.tsx, second part):
      [formatFileSize].

    Job objects are JavaScript objects shared by reference between the job
    list of [HomePage] and the timer callbacks of [handleExecute]; they live
    in a store ([heap]) and the job list holds references into it. The timer
    callbacks assign to the job object and call no state setter, so nothing
    is rendered again when they run: what [JobTracker] shows is the state of
    the jobs at its last render ([tracker]). *)

From stdpp Require Import base numbers list strings pretty sorting relations.
From Stdlib Require Import Ascii QArith Qround Qminmax Reals Lra.

Local Open Scope N_scope.

(** ** Types (src/unnamed/part_000) *)

(** [type: 'raster' | 'vector'] *)
Inductive FileKind := raster | vector.

(** [export interface UploadedFile]; the optional [info] is left [undefined]
    by [UploadZone] and read by none of the functions below. *)
Record UploadedFile := mkFile {
  file_id : string;
  file_name : string;
  file_size : N;
  file_type : FileKind;
  file_path : string;
  file_uploadedAt : N;
}.

(** [type: 'clip' | 'reproject' | 'resample' | 'mosaic'] *)
Inductive JobType := clip | reproject | resample | mosaic.

(** [status: 'pending' | 'processing' | 'completed' | 'failed'] *)
Inductive JobStatus := pending | processing | completed | failed.

(** [export interface ProcessingJob]. [created_at] is the clock reading in
    milliseconds of which the source stores the ISO-8601 rendering
    ([new Date().toISOString()]); [parameters] is a [Record<string, any>]. *)
Record ProcessingJob := mkJob {
  job_id : string;
  job_type : JobType;
  job_status : JobStatus;
  job_progress : N;
  job_input_files : list string;
  job_output_file : option string;
  job_parameters : list (string * string);
  job_created_at : N;
  job_updated_at : option N;
  job_error : option string;
}.

Global Instance FileKind_eq_dec : EqDecision FileKind.
Proof. solve_decision. Defined.
Global Instance JobType_eq_dec : EqDecision JobType.
Proof. solve_decision. Defined.
Global Instance JobStatus_eq_dec : EqDecision JobStatus.
Proof. solve_decision. Defined.

(** The string each status value is at run time. *)
Definition status_name (st : JobStatus) : string :=
match st with
| pending => "pending"
| processing => "processing"
| completed => "completed"
| failed => "failed"
end.

(** The values of the union type [ProcessingJob['status']], as declared. *)
Definition status_values : list JobStatus :=
[pending; processing; completed; failed].

(** [export interface LayerConfig]; [metadata?: FileMetadata] and [data?: any]
    are kept abstract. *)
Record LayerConfig (FileMetadata GeoData : Type) := mkLayer {
  layer_id : string;
  layer_name : string;
  layer_type : FileKind;
  layer_visible : bool;
  layer_opacity : Q;
  layer_filePath : string;
  layer_metadata : option FileMetadata;
  layer_data : option GeoData;
}.
Arguments mkLayer {_ _}.
Arguments layer_id {_ _}.
Arguments layer_name {_ _}.
Arguments layer_type {_ _}.
Arguments layer_visible {_ _}.
Arguments layer_opacity {_ _}.
Arguments layer_filePath {_ _}.
Arguments layer_metadata {_ _}.
Arguments layer_data {_ _}.

(** ** MapViewer (src/unnamed/part_002) *)

Module MapViewer.
Section Layers.
Context {FileMetadata GeoData : Type}.
Abbreviation Layer := (LayerConfig FileMetadata GeoData).

(** [{ ...layer, visible: !layer.visible }] *)
Definition flip_visible (layer : Layer) : Layer :=
  mkLayer (layer_id layer) (layer_name layer) (layer_type layer)
          (negb (layer_visible layer)) (layer_opacity layer)
          (layer_filePath layer) (layer_metadata layer) (layer_data layer).

(** The updater passed to [setLayers]:
    [prev => prev.map(layer => layer.id === layerId ? {...} : layer)]. *)
Definition toggleLayerVisibility (layerId : string) (prev : list Layer)
  : list Layer :=
  (λ layer, if decide (layer_id layer = layerId)
            then flip_visible layer else layer) <$> prev.
End Layers.

Section Controls.
Context {FileMetadata GeoData : Type}.
Abbreviation Layer := (LayerConfig FileMetadata GeoData).

(** The updater passed to [setLayers]:
    [prev => prev.filter(layer => layer.id !== layerId)]. *)
Definition removeLayer (layerId : string) (prev : list Layer) : list Layer :=
  filter (λ layer, layer_id layer ≠ layerId) prev.

(** [handleFileSelect], as a function of the selected paths:
    [selectedFiles.includes(filePath)] chooses between
    [prev.filter(f => f !== filePath)] and [[...prev, filePath]]. *)
Definition handleFileSelect (filePath : string) (selectedFiles : list string)
  : list string :=
  if bool_decide (filePath ∈ selectedFiles)
  then filter (λ f, f ≠ filePath) selectedFiles
  else selectedFiles ++ [filePath].

(** [bounds: [number, number, number, number]] of the metadata of a file,
    by index: west, south, east, north. The coordinates are rationals (no
    [NaN]). *)
Record Bounds := mkBounds {
  bounds_0 : Q;
  bounds_1 : Q;
  bounds_2 : Q;
  bounds_3 : Q;
}.

(** [metadata.bounds], [None] when the value is missing at run time. *)
Context (bounds : FileMetadata → option Bounds).

(** [Math.min(...xs)] and [Math.max(...xs)] of a non-empty array, its first
    element given apart. *)
Definition Math_min (x : Q) (xs : list Q) : Q := foldl Qmin x xs.
Definition Math_max (x : Q) (xs : list Q) : Q := foldl Qmax x xs.

(** [zoomToLayers]: the argument [[minLat, minLng], [maxLat, maxLng]] it
    hands to [mapRef.current.fitBounds], or [None] when it returns before
    the call. [mapRef] tells whether [mapRef.current] is set; [allBounds] is
    [layers.filter(layer => layer.metadata?.bounds)
           .map(layer => layer.metadata!.bounds)]. *)
Definition zoomToLayers (mapRef : bool) (layers : list Layer)
  : option ((Q * Q) * (Q * Q)) :=
  if bool_decide (length layers = 0%nat) || negb mapRef then None
  else
    let allBounds := omap (λ layer, layer_metadata layer ≫= bounds) layers in
    match allBounds with
    | [] => None
    | b :: bs =>
        let minLng := Math_min (bounds_0 b) (bounds_0 <$> bs) in
        let minLat := Math_min (bounds_1 b) (bounds_1 <$> bs) in
        let maxLng := Math_max (bounds_2 b) (bounds_2 <$> bs) in
        let maxLat := Math_max (bounds_3 b) (bounds_3 <$> bs) in
        Some ((minLat, minLng), (maxLat, maxLng))
    end.

(** [b] is the bounds of one of the layers. *)
Definition has_bounds (layers : list Layer) (b : Bounds) : Prop :=
  ∃ layer m,
    layer ∈ layers ∧ layer_metadata layer = Some m ∧ bounds m = Some b.
(** [filePath.split('/')], never empty. *)
Fixpoint split_slash (s : string) : list string :=
  match s with
  | EmptyString => [EmptyString]
  | String c s' =>
      if decide (c = "/"%char) then EmptyString :: split_slash s'
      else match split_slash s' with
           | seg :: segs => String c seg :: segs
           | [] => [String c EmptyString]
           end
  end.

(** [filePath.split('/').pop() || filePath]; the empty string is falsy. *)
Definition layerName (filePath : string) : string :=
  match last (split_slash filePath) with
  | Some seg => if decide (seg = ""%string) then filePath else seg
  | None => filePath
  end.

(** Whether a string holds a ['/']. *)
Fixpoint has_slash (s : string) : bool :=
  match s with
  | EmptyString => false
  | String c s' => bool_decide (c = "/"%char) || has_slash s'
  end.

(** The two requests of [loadFileData] to [visualizationService], each
    answered ([Some]) or failed ([None], the promise is rejected); and
    [metadata.type]. *)
Context (getFileMetadata : string → option FileMetadata).
Context (getFilePreview : string → option GeoData).
Context (metadata_type : FileMetadata → FileKind).

(** The object literal [layerConfig] of [loadFileData]; [id] stands for
    [`layer_${Date.now()}_${Math.random().toString(36).substr(2, 9)}`]. *)
Definition layerConfig (id filePath : string) (metadata : FileMetadata)
    (layerData : option GeoData) : Layer :=
  mkLayer id (layerName filePath) (metadata_type metadata) true
          (if decide (metadata_type metadata = raster)
           then 8 # 10 else 7 # 10)
          filePath (Some metadata) layerData.

(** What [loadFileData] does to the layers: the updater it passes to
    [setLayers], [prev => [...prev, layerConfig]], or [None] when a request
    fails and the [catch] branch is taken before [setLayers] is reached.
    The preview is requested for vector files only. The loading indicator
    and the delayed [fitBounds] are left out. *)
Definition loadFileData (id filePath : string)
  : option (list Layer → list Layer) :=
  metadata ← getFileMetadata filePath;
  layerData ← (if decide (metadata_type metadata = vector)
               then Some <$> getFilePreview filePath
               else Some None);
  Some (λ prev, prev ++ [layerConfig id filePath metadata layerData]).

(** Whether [loadFileData] gets to its [setLayers] call for a path: the
    requests it makes are answered. *)
Definition loads (filePath : string) : bool :=
  match getFileMetadata filePath with
  | Some metadata =>
      if decide (metadata_type metadata = vector)
      then bool_decide (is_Some (getFilePreview filePath)) else true
  | None => false
  end.

(** [selectedFiles.filter(
       filePath => !layers.find(layer => layer.filePath === filePath))] *)
Definition filesToLoad (selectedFiles : list string) (layers : list Layer)
  : list string :=
  filter (λ filePath, filePath ∉ layer_filePath <$> layers) selectedFiles.

(** The loop [for (let i = 0; i < filesToLoad.length; i++)
                { ...; await loadFileData(filesToLoad[i]) }],
    from index [i] on; [id_of i] is the id the [i]-th call draws. *)
Fixpoint load_each (id_of : nat → string) (i : nat) (files : list string)
    (layers : list Layer) : list Layer :=
  match files with
  | [] => layers
  | filePath :: files' =>
      load_each id_of (S i) files'
        (match loadFileData (id_of i) filePath with
         | Some update => update layers
         | None => layers
         end)
  end.

(** [addSelectedFilesToMap] run to its end with nothing else touching the
    layers meanwhile: the layers and the selected paths it leaves
    ([setSelectedFiles([])]). *)
Definition addSelectedFilesToMap (id_of : nat → string)
    (selectedFiles : list string) (layers : list Layer)
  : list Layer * list string :=
  (load_each id_of 0 (filesToLoad selectedFiles layers) layers, []).
End Controls.
End MapViewer.

(** ** FileManager (components/FileManager.tsx) *)

Module FileManager.

(** A byte count as a real number. *)
Definition N2R (n : N) : R := IZR (Z.of_N n).

Definition k : N := 1024.
Definition sizes : list string := ["Bytes"; "KB"; "MB"; "GB"]%string.

(** [sizes[i]] inside a string concatenation: [undefined] prints as such,
    also for a negative index. *)
Definition unit_name (i : Z) : string :=
  if decide (0 ≤ i)%Z
  then default "undefined"%string (sizes !! Z.to_nat i)
  else "undefined"%string.

(** [x.toFixed(2)] for [x = num / den] picks the integer [n] with [n / 100]
    nearest to [x], the larger one on a tie. *)
Definition hundredths (num den : N) : N :=
  (200 * num + den) / (2 * den).

(** [(bytes / Math.pow(k, i)).toFixed(2)], in hundredths. [Math.pow(k, i)]
    is a power of two and the quotient is exact in binary64 for
    [bytes < 2^53]. For a negative [i] the quotient is the integer
    [bytes * k^(-i)]. *)
Definition quotient_hundredths (bytes : N) (i : Z) : N :=
  if decide (0 ≤ i)%Z then hundredths bytes (k ^ Z.to_N i)
  else 100 * (bytes * k ^ Z.to_N (- i)).

Definition digit (d : N) : string := pretty d.

(** [parseFloat(s)] of the string of [n] hundredths, converted back to a
    string by [+ ' ']: the number [n / 100] prints with its trailing zeros
    dropped (below [10^21], where the exponent notation starts). *)
Definition number_to_string (n : N) : string :=
  pretty (n / 100) +:+
  (if decide (n mod 100 = 0) then ""
   else "." +:+ digit (n mod 100 / 10) +:+
        (if decide (n mod 10 = 0) then "" else digit (n mod 10))).

(** [parseFloat((bytes / Math.pow(k, i)).toFixed(2)) + ' ' + sizes[i]] *)
Definition format_at (i : Z) (bytes : N) : string :=
  number_to_string (quotient_hundredths bytes i) +:+ " " +:+ unit_name i.

(** The unit index is computed in binary64 with two operations of the
    engine that are not exact: [Math.log], which the language leaves to the
    implementation, and the division. They are parameters: [Math_log b] is
    the number [Math.log(b)] evaluates to for the integer [b], [fdiv x y]
    the number [x / y] evaluates to, both taken as real numbers. *)
Section Engine.
Context (Math_log : N → R) (fdiv : R → R → R).

(** [Math.floor(Math.log(bytes) / Math.log(k))] *)
Definition unit_index (bytes : N) : Z :=
  Zfloor (fdiv (Math_log bytes) (Math_log k)).

Definition formatFileSize (bytes : N) : string :=
  if decide (bytes = 0) then "0 Bytes"
  else format_at (unit_index bytes) bytes.

(** What is asked of the engine. [Math.log(b)] is within a relative error
    of [2^-48] of the logarithm of [b] (sixteen units in the last place;
    the implementations in use stay within one). The division is rounded to
    the nearest binary64 number: a relative error of [2^-53] at most, the
    quotient being in the normal range. *)
Definition log_accurate (b : N) : Prop :=
  (Rabs (Math_log b - ln (N2R b)) <= ln (N2R b) / 2 ^ 48)%R.

Definition div_accurate (x y : R) : Prop :=
  (Rabs (fdiv x y - x / y) <= Rabs (x / y) / 2 ^ 53)%R.
End Engine.

(** An engine whose logarithm is exact; with the division of the real
    numbers it meets what is asked of the engine. *)
Definition exact_log (b : N) : R := ln (N2R b).

(** [onFilesChange(files.filter(f => f.id !== fileId))] *)
Definition handleDelete (files : list UploadedFile) (fileId : string)
  : list UploadedFile :=
  filter (λ f, file_id f ≠ fileId) files.

End FileManager.

(** ** The running page

    What the components share at run time: the clock read by [Date.now()],
    the job objects created by [handleExecute] (referred to by their index in
    [heap]), the callbacks registered with [setTimeout], the [useState] cells
    of [HomePage] and of [ProcessingPanel], and the rows [JobTracker] rendered
    last. *)

(** [useState<'upload' | 'map' | 'process' | 'jobs'>('upload')] *)
Inductive Tab := tab_upload | tab_map | tab_process | tab_jobs.

Global Instance Tab_eq_dec : EqDecision Tab.
Proof. solve_decision. Defined.

(** The two callbacks of [handleExecute]: the one registered with a delay of
    1000 ms and the one registered with a delay of 5000 ms. *)
Inductive TimerKind := Start | Finish.

Global Instance TimerKind_eq_dec : EqDecision TimerKind.
Proof. solve_decision. Defined.

(** A pending [setTimeout] callback: when it is due, and the job object its
    closure captured. *)
Record Timer := mkTimer {
  due : N;
  target : nat;
  kind : TimerKind;
}.

Global Instance Timer_eq_dec : EqDecision Timer.
Proof. solve_decision. Defined.

(** One rendered row of [JobTracker]: the job it shows, the status badge it
    printed, and whether the delete button was rendered
    ([job.status !== 'processing' && <Button onClick=... />]). *)
Record Row := mkRow {
  row_job : nat;
  row_status : JobStatus;
  row_delete : bool;
}.

Record State := mkState {
  now : N;
  heap : list ProcessingJob;
  timers : list Timer;
  activeTab : Tab;
  uploadedFiles : list UploadedFile;
  activeJobs : list nat;
  selectedOperation : option JobType;
  selectedFiles : list string;
  tracker : list Row;
}.

Definition with_now (x : N) (s : State) : State :=
  mkState x (heap s) (timers s) (activeTab s) (uploadedFiles s) (activeJobs s)
          (selectedOperation s) (selectedFiles s) (tracker s).
Definition with_heap (x : list ProcessingJob) (s : State) : State :=
  mkState (now s) x (timers s) (activeTab s) (uploadedFiles s) (activeJobs s)
          (selectedOperation s) (selectedFiles s) (tracker s).
Definition with_timers (x : list Timer) (s : State) : State :=
  mkState (now s) (heap s) x (activeTab s) (uploadedFiles s) (activeJobs s)
          (selectedOperation s) (selectedFiles s) (tracker s).
Definition with_activeTab (x : Tab) (s : State) : State :=
  mkState (now s) (heap s) (timers s) x (uploadedFiles s) (activeJobs s)
          (selectedOperation s) (selectedFiles s) (tracker s).
Definition with_uploadedFiles (x : list UploadedFile) (s : State) : State :=
  mkState (now s) (heap s) (timers s) (activeTab s) x (activeJobs s)
          (selectedOperation s) (selectedFiles s) (tracker s).
Definition with_activeJobs (x : list nat) (s : State) : State :=
  mkState (now s) (heap s) (timers s) (activeTab s) (uploadedFiles s) x
          (selectedOperation s) (selectedFiles s) (tracker s).
Definition with_selectedOperation (x : option JobType) (s : State) : State :=
  mkState (now s) (heap s) (timers s) (activeTab s) (uploadedFiles s)
          (activeJobs s) x (selectedFiles s) (tracker s).
Definition with_selectedFiles (x : list string) (s : State) : State :=
  mkState (now s) (heap s) (timers s) (activeTab s) (uploadedFiles s)
          (activeJobs s) (selectedOperation s) x (tracker s).
Definition with_tracker (x : list Row) (s : State) : State :=
  mkState (now s) (heap s) (timers s) (activeTab s) (uploadedFiles s)
          (activeJobs s) (selectedOperation s) (selectedFiles s) x.

(** The page as first rendered, the clock reading [t0]. *)
Definition init (t0 : N) : State :=
  mkState t0 [] [] tab_upload [] [] None [] [].

(** ** JobTracker (components/FileManager.tsx, second part) *)

Module JobTracker.

(** The row rendered for one job of [jobs.map((job) => ...)]. *)
Definition render_row (h : list ProcessingJob) (a : nat) : option Row :=
  (λ job, mkRow a (job_status job)
                (bool_decide (job_status job ≠ processing))) <$> h !! a.

Definition render (h : list ProcessingJob) (jobs : list nat) : list Row :=
  omap (render_row h) jobs.

(** [jobs.filter(j => j.id !== jobId)], the list handed to [onJobsChange];
    [jobs] holds references to the job objects in [h]. *)
Definition handleDelete (h : list ProcessingJob) (jobs : list nat)
    (jobId : string) : list nat :=
  filter (λ a, job_id <$> h !! a ≠ Some jobId) jobs.

End JobTracker.

(** ** HomePage (app/page.tsx) *)

Module HomePage.

(** A state change of [HomePage] renders it again, and with it the component
    of the active tab; [JobTracker] is mounted on the jobs tab only. *)
Definition rerender (s : State) : State :=
  with_tracker
    (if decide (activeTab s = tab_jobs)
     then JobTracker.render (heap s) (activeJobs s) else []) s.

Definition setUploadedFiles (f : list UploadedFile → list UploadedFile)
    (s : State) : State :=
  rerender (with_uploadedFiles (f (uploadedFiles s)) s).

Definition setActiveJobs (f : list nat → list nat) (s : State) : State :=
  rerender (with_activeJobs (f (activeJobs s)) s).

(** [setActiveTab(tab.id)]: nothing happens on the tab already shown;
    otherwise the component of the old tab is unmounted and the one of the
    new tab is mounted, [ProcessingPanel] with its initial local state. *)
Definition setActiveTab (t : Tab) (s : State) : State :=
  if decide (t = activeTab s) then s
  else rerender (with_selectedFiles []
                   (with_selectedOperation None (with_activeTab t s))).

(** [setUploadedFiles(prev => [...prev, file])] *)
Definition handleFileUpload (file : UploadedFile) (s : State) : State :=
  setUploadedFiles (λ prev, prev ++ [file]) s.

(** [setActiveJobs(prev => [...prev, job])] *)
Definition handleJobCreate (job : nat) (s : State) : State :=
  setActiveJobs (λ prev, prev ++ [job]) s.

End HomePage.

(** ** ProcessingPanel (src/unnamed/part_003, second part) *)

Module ProcessingPanel.

(** [requirements: { raster: 1, vector: 1 }]; an absent key is [None]. *)
Record Requirements := mkReq {
  req_raster : option nat;
  req_vector : option nat;
}.

(** The entries of [operations], without the fields only the view reads
    (name, description, icon). *)
Record Operation := mkOp {
  op_id : JobType;
  op_category : string;
  op_requirements : Requirements;
}.

Definition operation_of (t : JobType) : Operation :=
  match t with
  | clip => mkOp clip "geometric" (mkReq (Some 1%nat) (Some 1%nat))
  | reproject => mkOp reproject "geometric" (mkReq (Some 1%nat) None)
  | resample => mkOp resample "geometric" (mkReq (Some 1%nat) None)
  | mosaic => mkOp mosaic "analysis" (mkReq (Some 2%nat) None)
  end.

Definition operations : list Operation :=
  operation_of <$> [clip; reproject; resample; mosaic].

(** [files.filter(f => f.type === 'raster')] and its vector counterpart. *)
Definition rasterFiles (files : list UploadedFile) : list UploadedFile :=
  filter (λ f, file_type f = raster) files.
Definition vectorFiles (files : list UploadedFile) : list UploadedFile :=
  filter (λ f, file_type f = vector) files.

(** [reqs.raster && n < reqs.raster]: an absent or zero requirement is falsy. *)
Definition below (n : nat) (req : option nat) : bool :=
  match req with
  | Some (S r) => bool_decide (n < S r)%nat
  | _ => false
  end.

Definition canExecuteOperation (files : list UploadedFile)
    (operation : Operation) : bool :=
  let reqs := op_requirements operation in
  if below (length (rasterFiles files)) (req_raster reqs) then false
  else if below (length (vectorFiles files)) (req_vector reqs) then false
  else true.

(** [onClick={() => canExecute && setSelectedOperation(operation.id)}] *)
Definition selectOperation (t : JobType) (s : State) : State :=
  if canExecuteOperation (uploadedFiles s) (operation_of t)
  then with_selectedOperation (Some t) s else s.

(** Whether the check box of the file [fileId] is rendered: the raster files
    always, the vector files when the operation is [clip]. *)
Definition has_checkbox (s : State) (fileId : string) : bool :=
  match selectedOperation s with
  | None => false
  | Some t =>
      bool_decide (fileId ∈ file_id <$> rasterFiles (uploadedFiles s))
      || (bool_decide (t = clip)
          && bool_decide (fileId ∈ file_id <$> vectorFiles (uploadedFiles s)))
  end.

(** The [onChange] of a check box: [e.target.checked] is the negation of
    [selectedFiles.includes(file.id)]. *)
Definition toggleFile (fileId : string) (s : State) : State :=
  if bool_decide (fileId ∈ selectedFiles s)
  then with_selectedFiles (filter (λ i, i ≠ fileId) (selectedFiles s)) s
  else with_selectedFiles (selectedFiles s ++ [fileId]) s.

(** The object literal of [handleExecute]. [Date.now()] gives the id and
    [new Date()], evaluated next, the creation time; the model takes both at
    the same reading of the clock. *)
Definition new_job (s : State) (t : JobType) : ProcessingJob :=
  {| job_id := pretty (now s);
     job_type := t;
     job_status := pending;
     job_progress := 0;
     job_input_files := selectedFiles s;
     job_output_file := None;
     job_parameters := [];
     job_created_at := now s;
     job_updated_at := None;
     job_error := None |}.

(** Allocation of a job object: the reference is the next free index. *)
Definition alloc (job : ProcessingJob) (s : State) : nat * State :=
  (length (heap s), with_heap (heap s ++ [job]) s).

(** [setTimeout(callback, delay)] *)
Definition setTimeout (k : TimerKind) (a : nat) (delay : N) (s : State)
  : State :=
  with_timers (timers s ++ [mkTimer (now s + delay) a k]) s.

(** [if (!selectedOperation) return]; then the job object, [onJobCreate(job)]
    and the two [setTimeout] calls. *)
Definition handleExecute (s : State) : State :=
  match selectedOperation s with
  | None => s
  | Some t =>
      let (job, s1) := alloc (new_job s t) s in
      let s2 := HomePage.handleJobCreate job s1 in
      let s3 := setTimeout Start job 1000 s2 in
      setTimeout Finish job 5000 s3
  end.

(** [disabled={!selectedOperation || selectedFiles.length === 0}] *)
Definition execute_disabled (s : State) : bool :=
  bool_decide (selectedOperation s = None)
  || bool_decide (selectedFiles s = []).

(** The bodies of the two callbacks, assignments to the captured job:
    [job.status = 'processing'; job.progress = 50] and
    [job.status = 'completed'; job.progress = 100;
     job.output_file = `result_${job.id}.tif`]. *)
Definition on_start (job : ProcessingJob) : ProcessingJob :=
  {| job_id := job_id job;
     job_type := job_type job;
     job_status := processing;
     job_progress := 50;
     job_input_files := job_input_files job;
     job_output_file := job_output_file job;
     job_parameters := job_parameters job;
     job_created_at := job_created_at job;
     job_updated_at := job_updated_at job;
     job_error := job_error job |}.

Definition on_finish (job : ProcessingJob) : ProcessingJob :=
  {| job_id := job_id job;
     job_type := job_type job;
     job_status := completed;
     job_progress := 100;
     job_input_files := job_input_files job;
     job_output_file := Some ("result_" +:+ job_id job +:+ ".tif");
     job_parameters := job_parameters job;
     job_created_at := job_created_at job;
     job_updated_at := job_updated_at job;
     job_error := job_error job |}.

Definition callback (k : TimerKind) : ProcessingJob → ProcessingJob :=
  match k with
  | Start => on_start
  | Finish => on_finish
  end.

End ProcessingPanel.

(** ** The event loop *)

(** The pending callback that runs next: the one due first, the one
    registered first among those due at the same instant; and the callbacks
    left. *)
Fixpoint next_timer (ts : list Timer) : option (Timer * list Timer) :=
  match ts with
  | [] => None
  | t :: ts' =>
      match next_timer ts' with
      | None => Some (t, [])
      | Some (m, rest) =>
          if bool_decide (due t ≤ due m) then Some (t, ts')
          else Some (m, t :: rest)
      end
  end.

(** Running a callback mutates the job object it captured; nothing is
    rendered again. *)
Definition run_callback (t : Timer) (s : State) : State :=
  with_heap (alter (ProcessingPanel.callback (kind t)) (target t) (heap s)) s.

Definition run_timer (s : State) : State :=
  match next_timer (timers s) with
  | Some (t, rest) =>
      if bool_decide (due t ≤ now s)
      then run_callback t (with_timers rest s)
      else s
  | None => s
  end.

(** What can happen to the page. *)
Inductive Event :=
| EvTick (dt : N)
| EvTimer
| EvRender
| EvTab (t : Tab)
| EvFileUpload (file : UploadedFile)
| EvFileDelete (fileId : string)
| EvSelectOperation (t : JobType)
| EvToggleFile (fileId : string)
| EvExecute
| EvClickDelete (k : nat).

(** The click on the delete button of the [k]-th rendered row: the handler
    closes over the [jobs] of that render, [row_job <$> tracker s]. *)
Definition click_delete (k : nat) (s : State) : State :=
  match tracker s !! k with
  | Some row =>
      if row_delete row then
        match heap s !! row_job row with
        | Some job =>
            HomePage.setActiveJobs
              (λ _, JobTracker.handleDelete (heap s) (row_job <$> tracker s)
                                            (job_id job)) s
        | None => s
        end
      else s
  | None => s
  end.

Definition step (s : State) (e : Event) : State :=
  match e with
  | EvTick dt => with_now (now s + dt) s
  | EvTimer => run_timer s
  | EvRender => HomePage.rerender s
  | EvTab t => HomePage.setActiveTab t s
  | EvFileUpload file => HomePage.handleFileUpload file s
  | EvFileDelete fileId =>
      if decide (activeTab s = tab_upload)
      then HomePage.setUploadedFiles
             (λ _, FileManager.handleDelete (uploadedFiles s) fileId) s
      else s
  | EvSelectOperation t =>
      if decide (activeTab s = tab_process)
      then ProcessingPanel.selectOperation t s else s
  | EvToggleFile fileId =>
      if decide (activeTab s = tab_process)
      then if ProcessingPanel.has_checkbox s fileId
           then ProcessingPanel.toggleFile fileId s else s
      else s
  | EvExecute =>
      if decide (activeTab s = tab_process)
      then if ProcessingPanel.execute_disabled s then s
           else ProcessingPanel.handleExecute s
      else s
  | EvClickDelete k => click_delete k s
  end.

Definition run (s : State) (evs : list Event) : State := foldl step s evs.

Definition reachable (s : State) : Prop :=
  ∃ t0 evs, s = run (init t0) evs.

(** The event loop left alone until no callback is due any more. *)
Fixpoint run_due_fuel (fuel : nat) (s : State) : State :=
  match fuel with
  | O => s
  | S fuel' =>
      match next_timer (timers s) with
      | Some (t, _) =>
          if bool_decide (due t ≤ now s)
          then run_due_fuel fuel' (run_timer s) else s
      | None => s
      end
  end.

Definition run_due (s : State) : State :=
  run_due_fuel (length (timers s)) s.

(** [dt] milliseconds pass with nobody touching the page. *)
Definition elapse (dt : N) (s : State) : State :=
  run_due (step s (EvTick dt)).

(** The jobs as [JobTracker] lists them. *)
Definition listing (s : State) : list ProcessingJob :=
  omap (λ a, heap s !! a) (activeJobs s).

(** [jobs.filter(j => j.status === 'processing').length], the number
    [JobTracker] shows under Processando. *)
Definition count_processing (s : State) : nat :=
  length (filter (λ job, job_status job = processing) (listing s)).

(** ** Invariants of the running page *)

(** The delay each callback is registered with. *)
Definition delay (k : TimerKind) : N :=
  match k with
  | Start => 1000
  | Finish => 5000
  end.

(** Which callbacks of a job are still to run, by its status. *)
Definition awaits (st : JobStatus) (k : TimerKind) : bool :=
  match st, k with
  | pending, _ => true
  | processing, Finish => true
  | _, _ => false
  end.

(** The callback [t] is one its job still awaits, due [delay] after the
    creation of the job. *)
Definition awaited (h : list ProcessingJob) (t : Timer) : Prop :=
  ∃ job, h !! target t = Some job
         ∧ due t = job_created_at job + delay (kind t)
         ∧ awaits (job_status job) (kind t) = true.

(** The result reference a job has at its status. *)
Definition output_of (job : ProcessingJob) : option string :=
  if decide (job_status job = completed)
  then Some ("result_" +:+ job_id job +:+ ".tif") else None.

Definition terminal (st : JobStatus) : Prop :=
  st = completed ∨ st = failed.

(** The transitions of the state machine that the status type can express. *)
Inductive forward : JobStatus → JobStatus → Prop :=
| forward_claim : forward pending processing
| forward_complete : forward processing completed
| forward_fail : forward processing failed.

(** The fields of a job object at each status, the clock reading [clock]:
    no job fails; the progress and the result reference follow the status;
    the error is unset; the id is the creation time in decimal; a job is
    processing no sooner than 1000 ms after its creation, and completed no
    sooner than 5000 ms after it. *)
Record job_ok (clock : N) (job : ProcessingJob) : Prop := mkJobOk {
  ok_status : job_status job ≠ failed;
  ok_progress :
    job_progress job =
    match job_status job with
    | pending => 0
    | processing => 50
    | _ => 100
    end;
  ok_output : job_output_file job = output_of job;
  ok_error : job_error job = None;
  ok_id : job_id job = pretty (job_created_at job);
  ok_age :
    job_created_at job
    + match job_status job with
      | pending => 0
      | processing => 1000
      | _ => 5000
      end ≤ clock;
}.

(** The pending callbacks are exactly those the job objects still await,
    each once; every job object is well formed; the job objects were created
    in the order of their references. *)
Record jobs_inv (s : State) : Prop := mkJobsInv {
  inv_timers : ∀ t, t ∈ timers s ↔ awaited (heap s) t;
  inv_nodup : NoDup (timers s);
  inv_jobs : ∀ a job, heap s !! a = Some job → job_ok (now s) job;
  inv_mono : ∀ a b ja jb,
    (a ≤ b)%nat → heap s !! a = Some ja → heap s !! b = Some jb →
    job_created_at ja ≤ job_created_at jb;
}.

(** The job list holds references to job objects, in increasing order; the
    rows of [JobTracker] are those of the job list when it is mounted, and
    there are none when it is not. *)
Record list_inv (s : State) : Prop := mkListInv {
  inv_refs : ∀ a, a ∈ activeJobs s → (a < length (heap s))%nat;
  inv_sorted : StronglySorted lt (activeJobs s);
  inv_tracker :
    row_job <$> tracker s =
    if decide (activeTab s = tab_jobs) then activeJobs s else [];
}.

(** [ProcessingPanel] holds a selection on the process tab only, and the
    uploaded files meet the requirements of the selected operation. *)
Record panel_inv (s : State) : Prop := mkPanelInv {
  inv_mounted :
    activeTab s ≠ tab_process →
    selectedOperation s = None ∧ selectedFiles s = [];
  inv_gate : ∀ t,
    selectedOperation s = Some t →
    ProcessingPanel.canExecuteOperation
      (uploadedFiles s) (ProcessingPanel.operation_of t) = true;
}.

(** Only the clock, the timer callbacks and [handleExecute] touch the clock,
    the job objects or the timer queue. *)
Definition touches_jobs (e : Event) : bool :=
  match e with
  | EvTick _ | EvTimer | EvExecute => true
  | _ => false
  end.

(** What one event does to one job object: nothing, or one of the two
    transitions the callbacks make, each with its effect on the fields. *)
Inductive job_step : ProcessingJob → ProcessingJob → Prop :=
| job_step_same job : job_step job job
| job_step_start job :
    job_status job = pending →
    job_step job (ProcessingPanel.on_start job)
| job_step_finish job :
    job_status job = processing →
    job_step job (ProcessingPanel.on_finish job).

(** The age of a job decides its status once no callback is overdue. *)
Definition status_at (age : N) : JobStatus :=
  if decide (age < 1000) then pending
  else if decide (age < 5000) then processing
  else completed.

(** Submissions made one after the other, each followed by the given
    number of milliseconds with the page left alone. *)
Fixpoint submit_each (gaps : list N) (s : State) : State :=
  match gaps with
  | [] => s
  | d :: gaps' =>
      submit_each gaps' (elapse d (ProcessingPanel.handleExecute s))
  end.

(** The time a sequence of gaps takes. *)
Definition total (gaps : list N) : N := foldr N.add 0 gaps.

(** ** Scenarios *)

Definition raster_a : UploadedFile := mkFile "1" "a.tif" 2048 raster "a.tif" 0.
Definition raster_b : UploadedFile := mkFile "2" "b.tif" 4096 raster "b.tif" 0.

(** Two rasters are uploaded, the operation [t] is chosen on the process
    tab and the first raster is ticked; the page was opened at clock 5. *)
Definition ready (t : JobType) : list Event :=
  [EvFileUpload raster_a; EvFileUpload raster_b; EvTab tab_process;
   EvSelectOperation t; EvToggleFile "1"].

Definition demo_ready (t : JobType) : State := run (init 5) (ready t).

(** One raster is uploaded and the process tab is open; nothing is chosen
    yet. *)
Definition demo_one_raster : State :=
  run (init 5) [EvFileUpload raster_a; EvTab tab_process].

(** ... and the execute button is pressed. *)
Definition demo_submitted (t : JobType) : State :=
  run (init 5) (ready t ++ [EvExecute]).

(** The job of [demo_submitted], as created. *)
Definition demo_job (t : JobType) : ProcessingJob :=
  mkJob "5" t pending 0 ["1"%string] None [] 5 None None.

(** The job has run to its end. *)
Definition demo_completed : State :=
  run (init 5)
      (ready resample ++ [EvExecute; EvTick 5000; EvTimer; EvTimer]).

(** A second job is submitted 2000 ms after the first. *)
Definition demo_two_jobs : State :=
  run (init 5) (ready resample ++ [EvExecute; EvTick 2000; EvExecute]).

(** The execute button is pressed six times, 100 ms apart; 1000 ms after
    the last submission the first callback of each job has run. *)
Definition demo_six_jobs : State :=
  run (init 5)
      (ready resample
         ++ concat (replicate 5 [EvExecute; EvTick 100])
         ++ [EvExecute; EvTick 1000] ++ replicate 6 EvTimer).

(** Five submissions 100 ms apart (a sixth one follows). *)
Definition demo_gaps : list N := [100; 100; 100; 100; 100].

(** The job list is opened right after a submission, and the first
    callback runs while it is shown: the row still shows the job pending. *)
Definition demo_stale_row : State :=
  run (init 5)
      (ready resample ++ [EvExecute; EvTab tab_jobs; EvTick 1000; EvTimer]).

(** A completed job and a processing job, the job list just opened. *)
Definition demo_tracker : State :=
  run (init 5)
      (ready resample
         ++ [EvExecute; EvTick 4500; EvTimer; EvExecute; EvTick 1000;
             EvTimer; EvTimer; EvTab tab_jobs]).

(** Three layers of the map viewer: a raster, a hidden vector layer, and a
    layer whose metadata is missing; and the box around the first two. *)
Definition demo_layers : list (LayerConfig MapViewer.Bounds unit) :=
  [mkLayer "layer_1" "a.tif" raster true (8 # 10) "uploads/a.tif"
     (Some (MapViewer.mkBounds (-50) (-20) (-48) (-18))) None;
   mkLayer "layer_2" "b.geojson" vector false (7 # 10) "uploads/b.geojson"
     (Some (MapViewer.mkBounds (-49) (-25) (-40) (-19))) (Some ());
   mkLayer "layer_3" "c.tif" raster true (8 # 10) "uploads/c.tif" None None].

Definition demo_box : (Q * Q) * (Q * Q) := ((-25, -50), (-18, -40))%Q.

(** The answers of the service in the scenario: the metadata of one file
    cannot be read. A path that already has a layer, a new one and the
    unreadable one are selected. *)
Definition demo_getFileMetadata (filePath : string)
  : option MapViewer.Bounds :=
  if decide (filePath = "uploads/gone.tif"%string) then None
  else Some (MapViewer.mkBounds (-47) (-23) (-46) (-22)).

Definition demo_selected : list string :=
  ["uploads/a.tif"; "uploads/d.tif"; "uploads/gone.tif"]%string.

Definition demo_added
  : list (LayerConfig MapViewer.Bounds unit) * list string :=
  MapViewer.addSelectedFilesToMap demo_getFileMetadata (λ _, Some ())
    (λ _, raster) (λ i, "layer_" +:+ pretty i)%string demo_selected
    demo_layers.

(** ** More of the components *)

(** The four statistics of [JobTracker]:
    [jobs.filter(j => j.status === 'pending')] and its three siblings. *)
Definition pendingJobs (jobs : list ProcessingJob) : list ProcessingJob :=
  filter (λ j, job_status j = pending) jobs.
Definition processingJobs (jobs : list ProcessingJob) : list ProcessingJob :=
  filter (λ j, job_status j = processing) jobs.
Definition completedJobs (jobs : list ProcessingJob) : list ProcessingJob :=
  filter (λ j, job_status j = completed) jobs.
Definition failedJobs (jobs : list ProcessingJob) : list ProcessingJob :=
  filter (λ j, job_status j = failed) jobs.

(** Whether [JobTracker] renders the download button of a job:
    [job.status === 'completed' && job.output_file]; the empty string is
    falsy. *)
Definition download_rendered (job : ProcessingJob) : bool :=
  bool_decide (job_status job = completed)
  && match job_output_file job with
     | Some ref => bool_decide (ref ≠ ""%string)
     | None => false
     end.

(** What the page keeps true of the selected files and of the inputs of
    the jobs: a file is selected once at most and is an uploaded one; a job
    has at least one input and none twice, no parameters and no update
    time. *)
Record inputs_inv (s : State) : Prop := mkInputsInv {
  inv_selected_once : NoDup (selectedFiles s);
  inv_selected_uploaded :
    ∀ x, x ∈ selectedFiles s → x ∈ file_id <$> uploadedFiles s;
  inv_inputs : ∀ a job,
    heap s !! a = Some job →
    job_input_files job ≠ [] ∧ NoDup (job_input_files job)
    ∧ job_parameters job = [] ∧ job_updated_at job = None;
}.

(** ** UploadZone (src/unnamed/part_003, first part) *)

Module UploadZone.

(** The characters of a string. *)
Fixpoint chars (s : string) : list ascii :=
  match s with
  | EmptyString => []
  | String c s' => c :: chars s'
  end.

(** [file.name.toLowerCase()], for a name of ASCII characters: the letters
    A to Z are mapped to a to z, the other characters are kept. *)
Definition lower (c : ascii) : ascii :=
  let n := nat_of_ascii c in
  if (65 <=? n)%nat && (n <=? 90)%nat then ascii_of_nat (n + 32) else c.

Fixpoint toLowerCase (s : string) : string :=
  match s with
  | EmptyString => EmptyString
  | String c s' => String (lower c) (toLowerCase s')
  end.

Definition is_ascii (s : string) : Prop :=
  Forall (λ c, (nat_of_ascii c < 128)%nat) (chars s).

(** The alternatives of the two regular expressions of [onDrop],
    [/\.(tif|tiff|geotiff|jpg|jpeg|png)$/i] and
    [/\.(shp|geojson|gpkg|kml|kmz)$/i]. *)
Definition rasterExtensions : list string :=
  ["tif"; "tiff"; "geotiff"; "jpg"; "jpeg"; "png"]%string.
Definition vectorExtensions : list string :=
  ["shp"; "geojson"; "gpkg"; "kml"; "kmz"]%string.

(** [s] ends with a dot and the extension: what [\.ext$] matches. *)
Definition ends_with (s ext : string) : Prop :=
  chars ("." +:+ ext) `suffix_of` chars s.

Global Instance ends_with_dec s ext : Decision (ends_with s ext).
Proof. unfold ends_with. apply _. Defined.

(** Whether [s.match(/\.(e1|e2|...)$/i)] finds a match, for a lower-case
    [s]. *)
Definition matches (exts : list string) (s : string) : bool :=
  bool_decide (Exists (ends_with s) exts).

(** The first statements of the [try] block of [onDrop] for one file: the
    message of the error thrown, or the [type] the uploaded file gets,
    [isRaster ? 'raster' : 'vector']. *)
Definition classify (name : string) : string + FileKind :=
  let isRaster := matches rasterExtensions (toLowerCase name) in
  let isVector := matches vectorExtensions (toLowerCase name) in
  if negb isRaster && negb isVector
  then inl "Formato de arquivo não suportado"%string
  else inr (if isRaster then raster else vector).

End UploadZone.

(** ** MetadataViewer (app/visualizacao/page.tsx, second part) *)

Module MetadataViewer.

Definition units : list string := ["B"; "KB"; "MB"; "GB"; "TB"]%string.

(** A byte count as the number [size] starts from. *)
Definition N2Q (n : N) : Q := inject_Z (Z.of_N n).

(** The loop
    [while (size >= 1024 && unitIndex < units.length - 1)
       { size /= 1024; unitIndex++ }],
    run for [fuel] rounds at most. [size] is an integer byte count divided
    by a power of two, which binary64 holds exactly for counts below
    [2^53]. *)
Fixpoint shrink (fuel : nat) (size : Q) (unitIndex : nat) : Q * nat :=
  match fuel with
  | O => (size, unitIndex)
  | S fuel' =>
      if Qle_bool 1024 size && bool_decide (unitIndex < length units - 1)%nat
      then shrink fuel' (size / 1024) (S unitIndex)
      else (size, unitIndex)
  end.

(** [size] and [unitIndex] when the loop is left; each round increments
    [unitIndex], so [length units] rounds are enough ([scaled_spec]). *)
Definition scaled (bytes : N) : Q * nat := shrink (length units) (N2Q bytes) 0.

(** [x.toFixed(1)] for [x >= 0]: the integer [n] with [n / 10] nearest to
    [x], the larger one on a tie, printed with one decimal. *)
Definition toFixed1 (x : Q) : string :=
  let n := Z.to_N (Qfloor (x * 10 + (1 # 2))) in
  (pretty (n / 10) +:+ "." +:+ pretty (n mod 10))%string.

(** [`${size.toFixed(1)} ${units[unitIndex]}`] *)
Definition formatFileSize (bytes : N) : string :=
  let (size, unitIndex) := scaled bytes in
  (toFixed1 size +:+ " "
   +:+ default "undefined"%string (units !! unitIndex))%string.

End MetadataViewer.

(** * Proofs *)

(** ** The timer queue *)

Lemma next_timer_None ts : next_timer ts = None ↔ ts = [].
Proof.
  destruct ts as [|t ts]; simpl; [done|].
  destruct (next_timer ts) as [[m rest]|]; [case_bool_decide|]; done.
Qed.

Lemma next_timer_perm ts t rest :
  next_timer ts = Some (t, rest) → ts ≡ₚ t :: rest.
Proof.
  revert t rest. induction ts as [|x ts IH]; intros t rest; simpl; [done|].
  destruct (next_timer ts) as [[m r]|] eqn:E.
  - case_bool_decide; intros [= <- <-]; [done|].
    rewrite (IH _ _ eq_refl). apply Permutation_swap.
  - intros [= <- <-]. apply next_timer_None in E. by subst.
Qed.

Lemma next_timer_least ts t rest :
  next_timer ts = Some (t, rest) → ∀ t', t' ∈ ts → due t ≤ due t'.
Proof.
  revert t rest. induction ts as [|x ts IH]; intros t rest; simpl; [done|].
  destruct (next_timer ts) as [[m r]|] eqn:E.
  - specialize (IH _ _ eq_refl).
    case_bool_decide; intros [= <- <-] t' [->|Hin]%elem_of_cons;
      try lia; specialize (IH _ Hin); lia.
  - intros [= <- <-] t'. apply next_timer_None in E. subst.
    intros ->%list_elem_of_singleton. lia.
Qed.

Lemma next_timer_length ts t rest :
  next_timer ts = Some (t, rest) → length ts = S (length rest).
Proof. intros H%next_timer_perm. by rewrite H. Qed.

Lemma next_timer_elem ts t rest :
  next_timer ts = Some (t, rest) → NoDup ts →
  t ∈ ts ∧ (t ∉ rest) ∧ NoDup rest ∧ (∀ t', t' ∈ rest ↔ t' ∈ ts ∧ t' ≠ t).
Proof.
  intros H%next_timer_perm Hnd. rewrite H in Hnd.
  apply NoDup_cons in Hnd as [Hnotin Hnd].
  split_and!; [rewrite H; left|done|done|].
  intros t'. rewrite H, elem_of_cons. split.
  - intros Hin. split; [by right|]. by intros ->.
  - by intros [[->|Hin] Hne].
Qed.

(** ** Reachable states *)

Lemma run_snoc s evs e : run s (evs ++ [e]) = step (run s evs) e.
Proof. apply foldl_snoc. Qed.

Lemma reachable_init t0 : reachable (init t0).
Proof. by exists t0, []. Qed.

Lemma reachable_step s e : reachable s → reachable (step s e).
Proof. intros (t0 & evs & ->). exists t0, (evs ++ [e]). by rewrite run_snoc. Qed.

Lemma reachable_run s evs : reachable s → reachable (run s evs).
Proof.
  revert s. induction evs as [|e evs IH]; intros s Hs; [done|].
  apply IH, reachable_step, Hs.
Qed.

Lemma reachable_invariant (P : State → Prop) :
  (∀ t0, P (init t0)) →
  (∀ s e, P s → P (step s e)) →
  ∀ s, reachable s → P s.
Proof.
  intros Hinit Hstep s (t0 & evs & ->).
  induction evs as [|e evs IH] using rev_ind; [apply Hinit|].
  rewrite run_snoc. by apply Hstep.
Qed.

(** ** Jobs, their callbacks and the clock *)

Lemma jobs_inv_init t0 : jobs_inv (init t0).
Proof.
  split; simpl; try done; [|apply NoDup_nil_2].
  intros t. split; [by intros ?%elem_of_nil|]. by intros (job & ? & _).
Qed.

Lemma jobs_inv_frame s s' :
  now s' = now s → heap s' = heap s → timers s' = timers s →
  jobs_inv s → jobs_inv s'.
Proof.
  intros Hn Hh Ht [H1 H2 H3 H4].
  split; rewrite ?Hn, ?Hh, ?Ht; done.
Qed.

Lemma job_ok_later clock clock' job :
  clock ≤ clock' → job_ok clock job → job_ok clock' job.
Proof. intros Hle [? ? ? ? ? ?]. split; try done. lia. Qed.

Lemma jobs_inv_tick s dt : jobs_inv s → jobs_inv (with_now (now s + dt) s).
Proof.
  intros [H1 H2 H3 H4]. split; simpl; try done.
  intros a job Hjob. eapply job_ok_later, H3; [lia|done].
Qed.

Lemma timer_eq t t' :
  due t = due t' → target t = target t' → kind t = kind t' → t = t'.
Proof. destruct t, t'; simpl; congruence. Qed.

Lemma handleExecute_unfold s t :
  selectedOperation s = Some t →
  now (ProcessingPanel.handleExecute s) = now s
  ∧ heap (ProcessingPanel.handleExecute s)
    = heap s ++ [ProcessingPanel.new_job s t]
  ∧ timers (ProcessingPanel.handleExecute s)
    = timers s ++ [mkTimer (now s + 1000) (length (heap s)) Start;
                   mkTimer (now s + 5000) (length (heap s)) Finish]
  ∧ activeJobs (ProcessingPanel.handleExecute s)
    = activeJobs s ++ [length (heap s)]
  ∧ activeTab (ProcessingPanel.handleExecute s) = activeTab s
  ∧ uploadedFiles (ProcessingPanel.handleExecute s) = uploadedFiles s
  ∧ selectedOperation (ProcessingPanel.handleExecute s) = Some t
  ∧ selectedFiles (ProcessingPanel.handleExecute s) = selectedFiles s.
Proof.
  intros Hsel. unfold ProcessingPanel.handleExecute. rewrite Hsel. simpl.
  rewrite <- (assoc_L (++)). done.
Qed.

Lemma handleExecute_idle s :
  selectedOperation s = None → ProcessingPanel.handleExecute s = s.
Proof. intros Hsel. unfold ProcessingPanel.handleExecute. by rewrite Hsel. Qed.

Lemma job_ok_created clock job :
  job_ok clock job → job_created_at job ≤ clock.
Proof. intros [_ _ _ _ _ Hage]. lia. Qed.

Lemma new_job_ok s t : job_ok (now s) (ProcessingPanel.new_job s t).
Proof. split; simpl; try done. lia. Qed.

Lemma jobs_inv_handleExecute s :
  jobs_inv s → jobs_inv (ProcessingPanel.handleExecute s).
Proof.
  intros [H1 H2 H3 H4].
  destruct (selectedOperation s) as [t|] eqn:Hsel;
    [|by rewrite handleExecute_idle].
  destruct (handleExecute_unfold s t Hsel) as (Hn & Hh & Ht & _).
  set (a := length (heap s)) in *.
  set (job := ProcessingPanel.new_job s t) in *.
  assert (Hfresh : ∀ x, x ∈ timers s → (target x < a)%nat).
  { intros x (j & Hj & _)%H1. by apply lookup_lt_Some in Hj. }
  split; rewrite ?Hn, ?Hh, ?Ht.
  - intros x. rewrite !elem_of_app, !elem_of_cons, elem_of_nil. split.
    + intros [Hin|[->|[->|[]]]].
      * apply H1 in Hin as (j & Hj & Hd & Hw). exists j.
        by rewrite lookup_app_l by (by eapply lookup_lt_Some).
      * exists job. simpl. by rewrite list_lookup_middle.
      * exists job. simpl. by rewrite list_lookup_middle.
    + intros (j & [[Hlt Hj]|[Hx <-]]%lookup_snoc_Some & Hd & Hw).
      * left. apply H1. by exists j.
      * right. simpl in Hd. fold a in Hx.
        destruct (kind x) eqn:Hk; simpl in Hd; [left|right; left];
          by apply timer_eq.
  - apply NoDup_app. split_and!; [done| |].
    + intros x Hx%Hfresh. rewrite !elem_of_cons, elem_of_nil.
      intros [->|[->|[]]]; simpl in Hx; lia.
    + apply NoDup_cons. split; [|apply NoDup_singleton].
      intros Heq%list_elem_of_singleton. discriminate Heq.
  - intros b j [[Hlt Hj]|[Hx <-]]%lookup_snoc_Some.
    + by eapply H3.
    + apply new_job_ok.
  - intros b c jb jc Hle Hb Hc.
    apply lookup_snoc_Some in Hc as [[Hlt Hc]|[Hx <-]].
    + rewrite lookup_app_l in Hb by lia. exact (H4 _ _ _ _ Hle Hb Hc).
    + apply lookup_snoc_Some in Hb as [[Hlt Hb]|[Hx' <-]]; [|done].
      simpl. by eapply job_ok_created, H3.
Qed.

Lemma run_timer_cases s :
  run_timer s = s
  ∨ ∃ t rest, next_timer (timers s) = Some (t, rest) ∧ due t ≤ now s
              ∧ run_timer s = run_callback t (with_timers rest s).
Proof.
  unfold run_timer. destruct (next_timer (timers s)) as [[t rest]|]; [|by left].
  case_bool_decide; [right|by left]. by exists t, rest.
Qed.

(** The callback that runs next finds its job in the status it expects:
    the first one a pending job, the second one a processing job. *)
Lemma next_timer_job s t rest :
  jobs_inv s → next_timer (timers s) = Some (t, rest) →
  ∃ job, heap s !! target t = Some job
         ∧ due t = job_created_at job + delay (kind t)
         ∧ job_status job = match kind t with
                            | Start => pending
                            | Finish => processing
                            end.
Proof.
  intros [H1 H2 H3 H4] Hnext.
  destruct (next_timer_elem _ _ _ Hnext H2) as (Hin & _).
  apply H1 in Hin as (job & Hjob & Hdue & Hw). exists job.
  split_and!; [done..|].
  destruct (kind t) eqn:Hk, (job_status job) eqn:Hst; try done.
  assert (Hearly : mkTimer (job_created_at job + 1000) (target t) Start
                   ∈ timers s).
  { apply H1. exists job. simpl. by rewrite Hst. }
  apply (next_timer_least _ _ _ Hnext) in Hearly. simpl in *. lia.
Qed.

Lemma callback_ok clock k job :
  job_status job = match k with Start => pending | Finish => processing end →
  job_created_at job + delay k ≤ clock →
  job_ok clock job → job_ok clock (ProcessingPanel.callback k job).
Proof.
  intros Hst Hdue [? Hp Ho ? ? ?]. destruct k; split; simpl; try done.
  rewrite Ho. unfold output_of. simpl. rewrite Hst. by rewrite !decide_False.
Qed.

Lemma callback_created k job :
  job_created_at (ProcessingPanel.callback k job) = job_created_at job.
Proof. by destruct k. Qed.

Lemma callback_id k job :
  job_id (ProcessingPanel.callback k job) = job_id job.
Proof. by destruct k. Qed.

Lemma callback_status k job :
  job_status (ProcessingPanel.callback k job)
  = match k with Start => processing | Finish => completed end.
Proof. by destruct k. Qed.

Lemma alter_callback_lookup (h : list ProcessingJob) i k a job :
  alter (ProcessingPanel.callback k) i h !! a = Some job →
  ∃ job', h !! a = Some job'
          ∧ job_created_at job' = job_created_at job
          ∧ job_id job' = job_id job.
Proof.
  rewrite list_lookup_alter. case_decide as Hi; [subst a|by eauto].
  destruct (h !! i) as [job'|]; [|done]. intros [= <-]. exists job'.
  by rewrite callback_created, callback_id.
Qed.

Lemma jobs_inv_run_callback s t rest :
  jobs_inv s → next_timer (timers s) = Some (t, rest) → due t ≤ now s →
  jobs_inv (run_callback t (with_timers rest s)).
Proof.
  intros Hinv Hnext Hnow.
  destruct (next_timer_job _ _ _ Hinv Hnext) as (job & Hjob & Hdue & Hst).
  destruct Hinv as [H1 H2 H3 H4].
  destruct (next_timer_elem _ _ _ Hnext H2) as (Hin & Hnotin & Hnd & Hrest).
  split; simpl; [|done| |].
  - intros x. rewrite Hrest, H1. unfold awaited.
    destruct (decide (target t = target x)) as [Heq|Hne].
    + rewrite <- Heq, list_lookup_alter_eq, Hjob. simpl. split.
      * intros [(j & [= <-] & Hd & Hw) Hx]. eexists. split; [done|].
        rewrite callback_created, callback_status. split; [done|].
        rewrite Hst in Hw.
        destruct (kind t) eqn:Hk, (kind x) eqn:Hk'; try done;
          destruct Hx; apply timer_eq; simpl in *; congruence.
      * intros (j & [= <-] & Hd & Hw).
        rewrite callback_created in Hd. rewrite callback_status in Hw.
        destruct (kind t) eqn:Hk, (kind x) eqn:Hk'; try done.
        split; [|by intros ->; rewrite Hk in Hk'].
        exists job. by rewrite Hst.
    + rewrite list_lookup_alter_ne by done. split; [by intros [? _]|].
      intros H. split; [done|]. by intros ->.
  - intros a j. rewrite list_lookup_alter. case_decide as Ha.
    + subst a. rewrite Hjob. intros [= <-].
      apply callback_ok; [done|lia|]. by eapply H3.
    + apply H3.
  - intros a b ja jb Hle.
    intros Ha Hb.
    apply alter_callback_lookup in Ha as (ja' & Ha & <- & _).
    apply alter_callback_lookup in Hb as (jb' & Hb & <- & _).
    by eapply H4.
Qed.

Lemma jobs_inv_run_timer s : jobs_inv s → jobs_inv (run_timer s).
Proof.
  intros Hinv. destruct (run_timer_cases s) as [->|(t & rest & Hn & ? & ->)];
    [done|]. by apply jobs_inv_run_callback.
Qed.

Ltac unfold_handlers :=
  unfold click_delete, HomePage.setActiveTab, HomePage.handleFileUpload,
    HomePage.handleJobCreate, HomePage.setUploadedFiles,
    HomePage.setActiveJobs, HomePage.rerender,
    ProcessingPanel.selectOperation, ProcessingPanel.toggleFile in *.

Lemma step_frame s e :
  touches_jobs e = false →
  now (step s e) = now s ∧ heap (step s e) = heap s
  ∧ timers (step s e) = timers s.
Proof.
  destruct e; try done; intros _; simpl; unfold_handlers;
    repeat case_match; done.
Qed.

Lemma jobs_inv_step s e : jobs_inv s → jobs_inv (step s e).
Proof.
  intros Hinv. destruct (touches_jobs e) eqn:He.
  - destruct e; try done; simpl.
    + by apply jobs_inv_tick.
    + by apply jobs_inv_run_timer.
    + repeat case_match; try done. by apply jobs_inv_handleExecute.
  - destruct (step_frame s e He) as (Hn & Hh & Ht). by eapply jobs_inv_frame.
Qed.

Lemma reachable_jobs_inv s : reachable s → jobs_inv s.
Proof.
  apply reachable_invariant; [apply jobs_inv_init|].
  intros. by apply jobs_inv_step.
Qed.

(** ** The status of a job over a run *)

Lemma step_job s e a job :
  jobs_inv s → heap s !! a = Some job →
  ∃ job', heap (step s e) !! a = Some job' ∧ job_step job job'.
Proof.
  intros Hinv Hjob. destruct (touches_jobs e) eqn:He.
  - destruct e; try done; simpl.
    + exists job. split; [done|constructor].
    + destruct (run_timer_cases s) as [->|(t & rest & Hn & _ & ->)];
        [exists job; split; [done|constructor]|].
      destruct (next_timer_job _ _ _ Hinv Hn) as (j & Hj & _ & Hst).
      simpl. rewrite list_lookup_alter. case_decide as Ha.
      * subst a. rewrite Hj. simplify_eq. eexists. split; [done|].
        destruct (kind t); by constructor.
      * exists job. split; [done|constructor].
    + exists job. split; [|constructor].
      repeat case_match; try done.
      destruct (selectedOperation s) as [t|] eqn:Hsel;
        [|by rewrite handleExecute_idle].
      destruct (handleExecute_unfold s t Hsel) as (_ & -> & _).
      by apply lookup_app_l_Some.
  - destruct (step_frame s e He) as (_ & -> & _).
    exists job. split; [done|constructor].
Qed.

Lemma job_step_status job job' :
  job_step job job' →
  job_status job' = job_status job
  ∨ forward (job_status job) (job_status job').
Proof.
  intros [j|j Hst|j Hst]; [by left|right; rewrite Hst; constructor..].
Qed.

Lemma forward_not_terminal st st' : forward st st' → ¬ terminal st.
Proof. by intros [] [?|?]. Qed.

Lemma rtc_forward_terminal st st' :
  rtc forward st st' → terminal st → st' = st.
Proof.
  intros Hrtc Hterm. destruct Hrtc as [|st st1 st2 Hfw _]; [done|].
  by apply forward_not_terminal in Hfw.
Qed.

Lemma jobs_inv_run s evs : jobs_inv s → jobs_inv (run s evs).
Proof.
  revert s. induction evs as [|e evs IH]; intros s Hs; [done|].
  by apply IH, jobs_inv_step.
Qed.

(** What the callbacks never change. *)
Lemma job_step_immutable job job' :
  job_step job job' →
  job_id job' = job_id job ∧ job_type job' = job_type job
  ∧ job_input_files job' = job_input_files job
  ∧ job_created_at job' = job_created_at job.
Proof. by intros [j|j Hst|j Hst]. Qed.

Lemma run_job s evs a job :
  jobs_inv s → heap s !! a = Some job →
  ∃ job', heap (run s evs) !! a = Some job'
          ∧ rtc forward (job_status job) (job_status job')
          ∧ job_id job' = job_id job ∧ job_type job' = job_type job
          ∧ job_input_files job' = job_input_files job
          ∧ job_created_at job' = job_created_at job.
Proof.
  revert s job. induction evs as [|e evs IH]; intros s job Hs Hjob.
  - by exists job.
  - destruct (step_job s e a job Hs Hjob) as (job1 & Hjob1 & Hstep).
    destruct (IH _ _ (jobs_inv_step _ e Hs) Hjob1)
      as (job' & Hjob' & Hrtc & F1 & F2 & F3 & F4).
    destruct (job_step_immutable _ _ Hstep) as (E1 & E2 & E3 & E4).
    exists job'. split_and!; [exact Hjob'| |congruence..].
    destruct (job_step_status _ _ Hstep) as [<-|Hfw]; [done|].
    by eapply rtc_l.
Qed.

(** C1. Over every sequence of events a job object stays in the store and
    its status only moves forward through pending -> processing ->
    {completed, failed}; a job that has reached a terminal status keeps it
    whatever happens later. *)
Theorem status_only_moves_forward s evs a job :
  reachable s → heap s !! a = Some job →
  ∃ job', heap (run s evs) !! a = Some job'
          ∧ rtc forward (job_status job) (job_status job')
          ∧ (terminal (job_status job) → job_status job' = job_status job).
Proof.
  intros Hs Hjob.
  destruct (run_job s evs a job (reachable_jobs_inv _ Hs) Hjob)
    as (job' & Hjob' & Hrtc & _).
  exists job'. split_and!; [done..|].
  by apply rtc_forward_terminal.
Qed.

(** ** Result reference and error *)

(** C3. In every reachable state, for every job object: the result
    reference ([output_file]) and the error are never both set, both are
    unset unless the status is terminal, and the result reference is set only
    when the status is completed. *)
Theorem result_and_error_exclusive s a job :
  reachable s → heap s !! a = Some job →
  ¬ (is_Some (job_output_file job) ∧ is_Some (job_error job))
  ∧ (¬ terminal (job_status job) →
     job_output_file job = None ∧ job_error job = None)
  ∧ (is_Some (job_output_file job) → job_status job = completed).
Proof.
  intros Hs Hjob.
  destruct (inv_jobs s (reachable_jobs_inv s Hs) a job Hjob)
    as [_ _ Hout Herr _ _].
  rewrite Hout, Herr. unfold output_of, terminal.
  split_and!.
  - intros [_ [x [=]]].
  - intros Hterm. case_decide; [|done]. destruct Hterm. by left.
  - case_decide; [done|]. by intros [x [=]].
Qed.

(** ** Letting time pass *)

Lemma run_due_fuel_events n s :
  ∃ k, run_due_fuel n s = run s (replicate k EvTimer).
Proof.
  revert s. induction n as [|n IH]; intros s; simpl; [by exists O|].
  destruct (next_timer (timers s)) as [[t rest]|]; [|by exists O].
  case_bool_decide; [|by exists O].
  destruct (IH (run_timer s)) as (k & ->). by exists (S k).
Qed.

Lemma elapse_events dt s :
  ∃ k, elapse dt s = run s (EvTick dt :: replicate k EvTimer).
Proof.
  unfold elapse, run_due.
  destruct (run_due_fuel_events
              (length (timers (step s (EvTick dt)))) (step s (EvTick dt)))
    as (k & ->).
  by exists k.
Qed.

Lemma reachable_elapse dt s : reachable s → reachable (elapse dt s).
Proof.
  intros Hs. destruct (elapse_events dt s) as (k & ->).
  by apply reachable_run.
Qed.

(** Once the event loop has run every due callback, exactly the callbacks
    that are not due yet are left, and the clock has not moved. *)
Lemma run_due_fuel_spec n s :
  jobs_inv s → (length (timers s) ≤ n)%nat →
  now (run_due_fuel n s) = now s
  ∧ ∀ t, t ∈ timers (run_due_fuel n s) ↔ t ∈ timers s ∧ now s < due t.
Proof.
  revert s. induction n as [|n IH]; intros s Hinv Hlen; simpl.
  - destruct (timers s); [|simpl in Hlen; lia].
    split; [done|]. intros t. split; [by intros ?%elem_of_nil|by intros [? _]].
  - destruct (next_timer (timers s)) as [[t rest]|] eqn:Hnext.
    + pose proof (next_timer_least _ _ _ Hnext) as Hleast.
      destruct (next_timer_elem _ _ _ Hnext (inv_nodup _ Hinv))
        as (Hin & _ & _ & Hrest).
      case_bool_decide as Hdue.
      * assert (Hrun : run_timer s = run_callback t (with_timers rest s)).
        { unfold run_timer. rewrite Hnext. by rewrite bool_decide_true. }
        rewrite Hrun.
        destruct (IH (run_callback t (with_timers rest s))) as [Hn Ht].
        { by apply jobs_inv_run_callback. }
        { simpl. apply next_timer_length in Hnext. lia. }
        split; [done|]. intros x. rewrite Ht. simpl. rewrite Hrest.
        split; [by intros [[? _] ?]|].
        intros [Hx Hlt]. split_and!; try done. intros ->. lia.
      * split; [done|]. intros x. split; [|by intros [? _]].
        intros Hx. split; [done|]. specialize (Hleast _ Hx). lia.
    + apply next_timer_None in Hnext. rewrite Hnext.
      split; [done|]. intros t.
      split; [by intros ?%elem_of_nil|by intros [? _]].
Qed.

Lemma elapse_spec dt s :
  jobs_inv s →
  now (elapse dt s) = now s + dt
  ∧ ∀ t, t ∈ timers (elapse dt s) ↔ t ∈ timers s ∧ now s + dt < due t.
Proof.
  intros Hinv. unfold elapse, run_due.
  destruct (run_due_fuel_spec (length (timers (step s (EvTick dt))))
              (step s (EvTick dt))) as [Hn Ht]; [|done|done].
  by apply jobs_inv_step.
Qed.

Lemma status_by_age s a job :
  jobs_inv s → (∀ t, t ∈ timers s → now s < due t) →
  heap s !! a = Some job →
  job_status job = status_at (now s - job_created_at job).
Proof.
  intros Hinv Hquiet Hjob.
  pose proof (inv_jobs s Hinv a job Hjob) as [Hnf _ _ _ _ Hage].
  assert (Hlate : ∀ k, awaits (job_status job) k = true →
                       now s < job_created_at job + delay k).
  { intros k Hw.
    apply (Hquiet (mkTimer (job_created_at job + delay k) a k)).
    apply (inv_timers s Hinv). by exists job. }
  unfold status_at.
  destruct (job_status job) eqn:Hst; try done.
  - specialize (Hlate Start eq_refl). simpl in Hlate.
    rewrite decide_True by lia. done.
  - specialize (Hlate Finish eq_refl). simpl in Hlate.
    rewrite decide_False by lia. rewrite decide_True by lia. done.
  - rewrite !decide_False by lia. done.
Qed.

(** The fields of a job object at a given status. *)
Lemma job_fields s a job :
  jobs_inv s → heap s !! a = Some job →
  job_progress job = match job_status job with
                     | pending => 0
                     | processing => 50
                     | _ => 100
                     end
  ∧ job_output_file job
    = (if decide (job_status job = completed)
       then Some ("result_" +:+ job_id job +:+ ".tif") else None)
  ∧ job_error job = None.
Proof. intros Hinv Hjob. by destruct (inv_jobs s Hinv a job Hjob). Qed.

Lemma handleExecute_new_job s t :
  selectedOperation s = Some t →
  heap (ProcessingPanel.handleExecute s) !! length (heap s)
  = Some (ProcessingPanel.new_job s t).
Proof.
  intros Hsel. destruct (handleExecute_unfold s t Hsel) as (_ & -> & _).
  by apply list_lookup_middle.
Qed.

Lemma reachable_handleExecute s :
  reachable s → jobs_inv (ProcessingPanel.handleExecute s).
Proof. intros Hs. by apply jobs_inv_handleExecute, reachable_jobs_inv. Qed.

Lemma job_after_elapse s a job dt :
  jobs_inv s → heap s !! a = Some job →
  ∃ job', heap (elapse dt s) !! a = Some job'
          ∧ job_id job' = job_id job ∧ job_type job' = job_type job
          ∧ job_input_files job' = job_input_files job
          ∧ job_status job' = status_at (now s + dt - job_created_at job)
          ∧ job_progress job' = match job_status job' with
                                | pending => 0
                                | processing => 50
                                | _ => 100
                                end
          ∧ job_output_file job'
            = (if decide (job_status job' = completed)
               then Some ("result_" +:+ job_id job +:+ ".tif") else None)
          ∧ job_error job' = None.
Proof.
  intros Hinv Hjob.
  destruct (elapse_spec dt s Hinv) as [Hnow Hquiet].
  assert (Hinv' : jobs_inv (elapse dt s)).
  { destruct (elapse_events dt s) as (k & ->). by apply jobs_inv_run. }
  destruct (elapse_events dt s) as (k & Hk).
  destruct (run_job s (EvTick dt :: replicate k EvTimer) a job Hinv Hjob)
    as (job' & Hjob' & _ & E1 & E2 & E3 & E4).
  rewrite <- Hk in Hjob'. exists job'.
  destruct (job_fields _ _ _ Hinv' Hjob') as (Hp & Ho & He).
  split_and!; try done.
  - rewrite <- Hnow, <- E4. apply (status_by_age _ a); [done| |done].
    intros t Ht. apply Hquiet in Ht. lia.
  - by rewrite <- E1.
Qed.

(** C6. Submitting a resample operation on a single input creates a job
    that starts pending with progress 0; left alone it is processing with
    progress 50 from 1000 ms on and completed with progress 100 and the
    non-empty result reference [result_<id>.tif] from 5000 ms on: the
    progress values 0, 50, 100 strictly increase over the run. *)
Theorem resample_job_lifecycle s f :
  reachable s → selectedOperation s = Some resample → selectedFiles s = [f] →
  ∃ job,
    heap (ProcessingPanel.handleExecute s) !! length (heap s) = Some job
    ∧ last (activeJobs (ProcessingPanel.handleExecute s))
      = Some (length (heap s))
    ∧ job_type job = resample ∧ job_input_files job = [f]
    ∧ job_status job = pending ∧ job_progress job = 0
    ∧ job_output_file job = None
    ∧ ∀ dt, ∃ job',
        heap (elapse dt (ProcessingPanel.handleExecute s)) !! length (heap s)
        = Some job'
        ∧ (dt < 1000 →
           job_status job' = pending ∧ job_progress job' = 0
           ∧ job_output_file job' = None)
        ∧ (1000 ≤ dt < 5000 →
           job_status job' = processing ∧ job_progress job' = 50
           ∧ job_progress job < job_progress job'
           ∧ job_output_file job' = None)
        ∧ (5000 ≤ dt →
           job_status job' = completed ∧ job_progress job' = 100
           ∧ 50 < job_progress job'
           ∧ ∃ ref, job_output_file job' = Some ref
                    ∧ ref = ("result_" +:+ job_id job +:+ ".tif")%string
                    ∧ ref ≠ ""%string).
Proof.
  intros Hs Hsel Hfiles.
  exists (ProcessingPanel.new_job s resample).
  pose proof (handleExecute_new_job s resample Hsel) as Hnew.
  destruct (handleExecute_unfold s resample Hsel) as (Hn & _ & _ & Hjobs & _).
  split_and!; try done.
  { rewrite Hjobs. apply last_snoc. }
  intros dt.
  destruct (job_after_elapse _ _ _ dt (reachable_handleExecute s Hs) Hnew)
    as (job' & Hjob' & Hid & _ & _ & Hst & Hp & Ho & _).
  exists job'. split; [done|].
  rewrite Hn in Hst. simpl in Hst, Hid.
  replace (now s + dt - now s) with dt in Hst by lia.
  unfold status_at in Hst. rewrite Hp, Ho, Hst. simpl.
  split_and!; intros Hdt.
  - by rewrite decide_True by lia.
  - rewrite decide_False by lia. by rewrite decide_True by lia.
  - rewrite !decide_False by lia. split_and!; try done.
    eexists. by split_and!.
Qed.

(** ** The job list and the rendered rows *)

Lemma StronglySorted_filter {A} (R : relation A) (P : A → Prop)
    `{∀ x, Decision (P x)} (l : list A) :
  StronglySorted R l → StronglySorted R (filter P l).
Proof.
  induction 1 as [|x l Hl IH Hx]; [constructor|].
  rewrite filter_cons. case_decide; [|done].
  constructor; [done|].
  apply Forall_forall. intros y [_ Hy]%list_elem_of_filter.
  by eapply Forall_forall in Hx.
Qed.

Lemma render_refs (h : list ProcessingJob) (jobs : list nat) :
  (∀ a, a ∈ jobs → (a < length h)%nat) →
  row_job <$> JobTracker.render h jobs = jobs.
Proof.
  induction jobs as [|a jobs IH]; intros Hrefs; [done|].
  unfold JobTracker.render in *. simpl.
  destruct (lookup_lt_is_Some_2 h a) as [job Hjob]; [apply Hrefs; left|].
  unfold JobTracker.render_row at 1. rewrite Hjob. simpl.
  f_equal. apply IH. intros b Hb. apply Hrefs. by right.
Qed.

Lemma list_inv_init t0 : list_inv (init t0).
Proof. split; simpl; [by intros a ?%elem_of_nil|constructor|done]. Qed.

Lemma list_inv_rerender s :
  (∀ a, a ∈ activeJobs s → (a < length (heap s))%nat) →
  StronglySorted lt (activeJobs s) →
  list_inv (HomePage.rerender s).
Proof.
  intros Hrefs Hsorted. split; simpl; [done..|].
  case_decide; [|done]. by apply render_refs.
Qed.

Lemma list_inv_frame s s' :
  length (heap s') = length (heap s) → activeJobs s' = activeJobs s →
  activeTab s' = activeTab s → tracker s' = tracker s →
  list_inv s → list_inv s'.
Proof.
  intros Hh Hj Ht Hr [H1 H2 H3]. split; rewrite ?Hh, ?Hj, ?Ht, ?Hr; done.
Qed.

Lemma list_inv_handleExecute s :
  list_inv s → list_inv (ProcessingPanel.handleExecute s).
Proof.
  intros [H1 H2 H3].
  unfold ProcessingPanel.handleExecute.
  destruct (selectedOperation s) as [t|]; [|done]. simpl.
  apply (list_inv_frame
           (HomePage.rerender
              (with_activeJobs (activeJobs s ++ [length (heap s)])
                 (with_heap (heap s ++ [ProcessingPanel.new_job s t]) s))));
    [done..|].
  apply list_inv_rerender; simpl.
  - intros a. rewrite length_app, elem_of_app, list_elem_of_singleton. simpl.
    intros [Ha%H1| ->]; lia.
  - apply StronglySorted_app_2; [|done|repeat constructor].
    by intros a b Ha%H1 ->%list_elem_of_singleton.
Qed.

Lemma handleDelete_subset h jobs jobId a :
  a ∈ JobTracker.handleDelete h jobs jobId → a ∈ jobs.
Proof. by intros [_ ?]%list_elem_of_filter. Qed.

Lemma list_inv_click_delete s k : list_inv s → list_inv (click_delete k s).
Proof.
  intros [H1 H2 H3]. unfold click_delete.
  destruct (tracker s !! k) as [row|]; [|done].
  destruct (row_delete row); [|done].
  destruct (heap s !! row_job row) as [job|]; [|done].
  unfold HomePage.setActiveJobs. rewrite H3.
  apply list_inv_rerender; simpl.
  - intros a Ha%handleDelete_subset. case_decide; [by apply H1|].
    by apply elem_of_nil in Ha.
  - apply StronglySorted_filter. case_decide; [done|constructor].
Qed.

Lemma list_inv_step s e : list_inv s → list_inv (step s e).
Proof.
  intros Hinv.
  assert (Hre : ∀ s', heap s' = heap s → activeJobs s' = activeJobs s →
                      list_inv (HomePage.rerender s')).
  { intros s' Hh Hj. apply list_inv_rerender; rewrite ?Hh, ?Hj; apply Hinv. }
  destruct e; simpl.
  - by apply (list_inv_frame s).
  - destruct (run_timer_cases s) as [->|(t & rest & _ & _ & ->)]; [done|].
    apply (list_inv_frame s); [apply length_alter|done..].
  - by apply Hre.
  - unfold HomePage.setActiveTab. case_decide; [done|]. by apply Hre.
  - by apply Hre.
  - case_decide; [|done]. by apply Hre.
  - case_decide; [|done]. unfold ProcessingPanel.selectOperation.
    case_match; [|done]. by apply (list_inv_frame s).
  - case_decide; [|done]. case_match; [|done].
    unfold ProcessingPanel.toggleFile. case_bool_decide;
      by apply (list_inv_frame s).
  - repeat case_match; try done. by apply list_inv_handleExecute.
  - by apply list_inv_click_delete.
Qed.

Lemma reachable_list_inv s : reachable s → list_inv s.
Proof.
  apply reachable_invariant; [apply list_inv_init|].
  intros. by apply list_inv_step.
Qed.

(** The jobs are listed in the order of their references. *)
Lemma listing_lookup s i :
  list_inv s → listing s !! i = activeJobs s !! i ≫= (heap s !!.).
Proof.
  intros [Hrefs _ _]. unfold listing. revert i Hrefs.
  induction (activeJobs s) as [|a jobs IH]; intros i Hrefs; [done|].
  destruct (lookup_lt_is_Some_2 (heap s) a) as [job Hjob]; [apply Hrefs; left|].
  simpl. rewrite Hjob. destruct i as [|i]; simpl; [done|].
  apply IH. intros b Hb. apply Hrefs. by right.
Qed.

Lemma StronglySorted_lookup {A} (R : relation A) (l : list A) i j x y :
  StronglySorted R l → (i < j)%nat → l !! i = Some x → l !! j = Some y →
  R x y.
Proof.
  intros Hl. revert i j. induction Hl as [|z l Hl IH Hz]; intros i j Hij Hi Hj;
    [done|].
  destruct j as [|j]; [lia|]. simpl in Hj. destruct i as [|i]; simpl in Hi.
  - injection Hi as <-. eapply Forall_forall in Hz; [done|].
    by eapply list_elem_of_lookup_2.
  - apply (IH i j); [lia|done..].
Qed.

Lemma listing_sorted s i j ji jj :
  reachable s → (i ≤ j)%nat →
  listing s !! i = Some ji → listing s !! j = Some jj →
  job_created_at ji ≤ job_created_at jj.
Proof.
  intros Hs Hij.
  pose proof (reachable_list_inv s Hs) as Hlist.
  pose proof (reachable_jobs_inv s Hs) as Hjobs.
  rewrite !listing_lookup by done.
  destruct (activeJobs s !! i) as [a|] eqn:Ha; [simpl|done].
  destruct (activeJobs s !! j) as [b|] eqn:Hb; [simpl|done].
  intros Hji Hjj. apply (inv_mono s Hjobs a b); [|done..].
  destruct (decide (i = j)) as [->|Hne]; [by simplify_eq|].
  apply Nat.lt_le_incl.
  apply (StronglySorted_lookup lt (activeJobs s) i j); [|lia|done..].
  apply Hlist.
Qed.

Lemma omap_ext_elem {A B} (f g : A → option B) (l : list A) :
  (∀ x, x ∈ l → f x = g x) → omap f l = omap g l.
Proof.
  induction l as [|x l IH]; intros Hfg; [done|]. simpl.
  rewrite (Hfg x) by left.
  assert (omap f l = omap g l) as Hl.
  { apply IH. intros y Hy. apply Hfg. by right. }
  destruct (g x); [f_equal|]; exact Hl.
Qed.

Lemma listing_handleExecute s t :
  list_inv s → selectedOperation s = Some t →
  listing (ProcessingPanel.handleExecute s)
  = listing s ++ [ProcessingPanel.new_job s t].
Proof.
  intros [Hrefs _ _] Hsel. unfold listing.
  destruct (handleExecute_unfold s t Hsel) as (_ & -> & _ & -> & _).
  rewrite omap_app. simpl. rewrite list_lookup_middle by done. f_equal.
  apply omap_ext_elem. intros a Ha%Hrefs. by apply lookup_app_l.
Qed.

(** C8 (as the code has it). The jobs are listed in the order of their
    creation, oldest first: [created_at] never decreases down the list, and
    a submission puts the new job last, below every job listed before. *)
Theorem listing_oldest_first s :
  reachable s →
  (∀ i j ji jj, (i ≤ j)%nat →
     listing s !! i = Some ji → listing s !! j = Some jj →
     job_created_at ji ≤ job_created_at jj)
  ∧ (∀ t, selectedOperation s = Some t →
       ∃ job, listing (ProcessingPanel.handleExecute s) = listing s ++ [job]
              ∧ last (listing (ProcessingPanel.handleExecute s)) = Some job
              ∧ job_created_at job = now s
              ∧ ∀ old, old ∈ listing s →
                       job_created_at old ≤ job_created_at job).
Proof.
  intros Hs. split.
  - intros i j ji jj. by apply listing_sorted.
  - intros t Hsel. exists (ProcessingPanel.new_job s t).
    pose proof (reachable_list_inv s Hs) as Hlist.
    rewrite (listing_handleExecute s t) by done.
    split_and!; [done|apply last_snoc|done|].
    intros old [a [_ Hold]]%list_elem_of_omap. simpl.
    eapply job_ok_created, (inv_jobs s (reachable_jobs_inv s Hs)), Hold.
Qed.

(** ** The processing panel *)

Lemma below_mono n m req :
  (n ≤ m)%nat → ProcessingPanel.below n req = false →
  ProcessingPanel.below m req = false.
Proof.
  destruct req as [[|r]|]; simpl; try done.
  intros Hle. rewrite !bool_decide_eq_false. lia.
Qed.

Lemma canExecuteOperation_spec files operation :
  ProcessingPanel.canExecuteOperation files operation = true
  ↔ ProcessingPanel.below (length (ProcessingPanel.rasterFiles files))
      (ProcessingPanel.req_raster (ProcessingPanel.op_requirements operation))
    = false
    ∧ ProcessingPanel.below (length (ProcessingPanel.vectorFiles files))
        (ProcessingPanel.req_vector
           (ProcessingPanel.op_requirements operation))
      = false.
Proof.
  unfold ProcessingPanel.canExecuteOperation. simpl.
  repeat case_match; split; try done; by intros [? ?].
Qed.

Lemma canExecuteOperation_upload files file operation :
  ProcessingPanel.canExecuteOperation files operation = true →
  ProcessingPanel.canExecuteOperation (files ++ [file]) operation = true.
Proof.
  rewrite !canExecuteOperation_spec. intros [Hr Hv].
  unfold ProcessingPanel.rasterFiles, ProcessingPanel.vectorFiles in *.
  rewrite !filter_app, !length_app.
  split; (eapply below_mono; [|done]); lia.
Qed.

Lemma canExecuteOperation_mosaic files :
  ProcessingPanel.canExecuteOperation files
    (ProcessingPanel.operation_of mosaic) = true
  ↔ (2 ≤ length (ProcessingPanel.rasterFiles files))%nat.
Proof.
  rewrite canExecuteOperation_spec. simpl.
  rewrite bool_decide_eq_false. split; [intros [? _]|intros ?; split]; lia.
Qed.

Lemma panel_inv_init t0 : panel_inv (init t0).
Proof. by split. Qed.

Lemma panel_inv_frame s s' :
  activeTab s' = activeTab s → uploadedFiles s' = uploadedFiles s →
  selectedOperation s' = selectedOperation s →
  selectedFiles s' = selectedFiles s →
  panel_inv s → panel_inv s'.
Proof.
  intros Ht Hf Ho Hs [H1 H2]. split; rewrite ?Ht, ?Hf, ?Ho, ?Hs; done.
Qed.

Lemma panel_inv_step s e : panel_inv s → panel_inv (step s e).
Proof.
  intros Hinv. destruct e; simpl.
  - by apply (panel_inv_frame s).
  - destruct (run_timer_cases s) as [->|(t & rest & _ & _ & ->)]; [done|].
    by apply (panel_inv_frame s).
  - by apply (panel_inv_frame s).
  - unfold HomePage.setActiveTab. case_decide; [done|]. by split.
  - destruct Hinv as [H1 H2]. split; simpl; [done|].
    intros t' Hsel. by apply canExecuteOperation_upload, H2.
  - case_decide as Htab; [|done]. destruct Hinv as [H1 H2].
    destruct H1 as [Hsel Hfiles]; [by rewrite Htab|].
    split; simpl; [done|]. by rewrite Hsel.
  - case_decide as Htab; [|done]. unfold ProcessingPanel.selectOperation.
    case_match eqn:Hcan; [|done]. destruct Hinv as [H1 H2].
    split; simpl; [by rewrite Htab|]. by intros t' [= <-].
  - case_decide as Htab; [|done]. case_match; [|done].
    destruct Hinv as [H1 H2]. unfold ProcessingPanel.toggleFile.
    case_bool_decide; (split; simpl; [by rewrite Htab|done]).
  - repeat case_match; try done.
    destruct (selectedOperation s) as [t|] eqn:Hsel;
      [|by rewrite handleExecute_idle].
    destruct (handleExecute_unfold s t Hsel)
      as (_ & _ & _ & _ & Ht & Hf & Ho & Hs).
    apply (panel_inv_frame s); congruence.
  - unfold click_delete. repeat case_match; try done.
    by apply (panel_inv_frame s).
Qed.

Lemma reachable_panel_inv s : reachable s → panel_inv s.
Proof.
  apply reachable_invariant; [apply panel_inv_init|].
  intros. by apply panel_inv_step.
Qed.

(** C5 (as the code has it). The two-raster requirement of the mosaic
    operation is applied when the operation is chosen, to the uploaded
    files: while fewer than two raster files are uploaded, choosing mosaic
    changes nothing, so in every reachable state in which mosaic is selected
    at least two raster files are uploaded; and a submission with no
    operation selected creates no job record. *)
Theorem mosaic_requirement_gates_selection s :
  reachable s →
  ((length (ProcessingPanel.rasterFiles (uploadedFiles s)) < 2)%nat →
   step s (EvSelectOperation mosaic) = s)
  ∧ (selectedOperation s = Some mosaic →
     (2 ≤ length (ProcessingPanel.rasterFiles (uploadedFiles s)))%nat)
  ∧ (selectedOperation s = None →
     ProcessingPanel.handleExecute s = s ∧ step s EvExecute = s).
Proof.
  intros Hs. split_and!.
  - intros Hfew. simpl. case_decide; [|done].
    unfold ProcessingPanel.selectOperation.
    destruct (ProcessingPanel.canExecuteOperation _ _) eqn:Hcan; [|done].
    apply canExecuteOperation_mosaic in Hcan. lia.
  - intros Hsel. apply canExecuteOperation_mosaic.
    by apply (inv_gate s (reachable_panel_inv s Hs)).
  - intros Hsel. split; [by apply handleExecute_idle|]. simpl.
    repeat case_match; try done. by apply handleExecute_idle.
Qed.

(** ** Deleting a listed job *)

Lemma handleDelete_spec (h : list ProcessingJob) jobs jobId a :
  a ∈ JobTracker.handleDelete h jobs jobId
  ↔ a ∈ jobs ∧ job_id <$> h !! a ≠ Some jobId.
Proof. unfold JobTracker.handleDelete. rewrite list_elem_of_filter. tauto. Qed.

Lemma render_elem (h : list ProcessingJob) jobs row :
  row ∈ JobTracker.render h jobs →
  ∃ job, row_job row ∈ jobs ∧ h !! row_job row = Some job
         ∧ row_status row = job_status job
         ∧ row_delete row = bool_decide (job_status job ≠ processing).
Proof.
  intros (a & Ha & Hrow)%list_elem_of_omap.
  unfold JobTracker.render_row in Hrow.
  destruct (h !! a) as [job|] eqn:Hjob; [|done].
  injection Hrow as <-. by exists job.
Qed.

Lemma distinct_ids s b c jb jc :
  list_inv s → NoDup (job_id <$> listing s) →
  b ∈ activeJobs s → c ∈ activeJobs s →
  heap s !! b = Some jb → heap s !! c = Some jc →
  job_id jb = job_id jc → b = c.
Proof.
  intros Hlist Hnd [i Hi]%list_elem_of_lookup_1 [j Hj]%list_elem_of_lookup_1
    Hb Hc Hid.
  assert (i = j) as ->; [|congruence].
  apply (NoDup_lookup _ i j (job_id jb) Hnd);
    rewrite list_lookup_fmap, listing_lookup by done.
  - by rewrite Hi; simpl; rewrite Hb.
  - by rewrite Hj; simpl; rewrite Hc, Hid.
Qed.

(** What the guard of the view achieves while the rows are fresh. The delete
    button is rendered only for a job whose status is not processing: on a
    job list whose ids are pairwise distinct and whose rows show the current
    state of the jobs, the click on a row either finds no button (the row of
    a processing job: nothing changes) or removes the job of that row only. *)
Lemma delete_guard_on_fresh_rows s k a job :
  reachable s →
  tracker s = JobTracker.render (heap s) (activeJobs s) →
  NoDup (job_id <$> listing s) →
  a ∈ activeJobs s → heap s !! a = Some job → job_status job = processing →
  a ∈ activeJobs (step s (EvClickDelete k))
  ∧ heap (step s (EvClickDelete k)) !! a = Some job
  ∧ (activeJobs s !! k = Some a → step s (EvClickDelete k) = s).
Proof.
  intros Hs Hfresh Hids Ha Hjob Hst.
  pose proof (reachable_list_inv s Hs) as Hlist.
  assert (Hjobs : row_job <$> tracker s = activeJobs s).
  { rewrite Hfresh. by apply render_refs, Hlist. }
  simpl. unfold click_delete.
  destruct (tracker s !! k) as [row|] eqn:Hrow; [|done].
  assert (Hk : activeJobs s !! k = Some (row_job row)).
  { by rewrite <- Hjobs, list_lookup_fmap, Hrow. }
  destruct (render_elem (heap s) (activeJobs s) row)
    as (jk & Hin & Hjk & _ & Hdel).
  { rewrite <- Hfresh. by eapply list_elem_of_lookup_2. }
  rewrite Hjk.
  destruct (row_delete row) eqn:Hbutton.
  - symmetry in Hdel. apply bool_decide_eq_true in Hdel.
    assert (Hne : job_id job ≠ job_id jk).
    { intros Heq.
      assert (a = row_job row) as -> by by eapply (distinct_ids s).
      by simplify_eq. }
    simpl. split_and!; [|done|].
    + rewrite Hjobs. apply handleDelete_spec. split; [done|].
      rewrite Hjob. simpl. congruence.
    + intros Hka. rewrite Hk in Hka. injection Hka as <-. by simplify_eq.
  - done.
Qed.

(** ** The values of the status *)

Lemma step_job_other s e a job :
  e ≠ EvTimer → heap s !! a = Some job → heap (step s e) !! a = Some job.
Proof.
  intros He Hjob. destruct (touches_jobs e) eqn:Ht.
  - destruct e; try done; simpl.
    repeat case_match; try done.
    destruct (selectedOperation s) as [t|] eqn:Hsel;
      [|by rewrite handleExecute_idle].
    destruct (handleExecute_unfold s t Hsel) as (_ & -> & _).
    by apply lookup_app_l_Some.
  - by destruct (step_frame s e Ht) as (_ & -> & _).
Qed.

(** C2 (as the code has it). The status of a job is one of exactly four
    values, pending, processing, completed and failed; there is no cancelled
    status and no cancellation request: an event leaves the status of a job
    as it is, except the timer callbacks, which take a pending job to
    processing and a processing job to completed. *)
Theorem four_statuses_no_cancellation s e a job :
  reachable s → heap s !! a = Some job →
  job_status job ∈ status_values
  ∧ status_name <$> status_values
    = ["pending"; "processing"; "completed"; "failed"]%string
  ∧ status_name (job_status job) ≠ "cancelled"%string
  ∧ ∃ job', heap (step s e) !! a = Some job'
            ∧ (job_status job' = job_status job
               ∨ (e = EvTimer ∧ job_status job = pending
                  ∧ job_status job' = processing)
               ∨ (e = EvTimer ∧ job_status job = processing
                  ∧ job_status job' = completed)).
Proof.
  intros Hs Hjob. split_and!; [|done| |].
  - unfold status_values. destruct (job_status job); set_solver.
  - by destruct (job_status job).
  - assert (e = EvTimer ∨ e ≠ EvTimer) as [->|He]
      by (destruct e; (by left) || (by right)).
    + destruct (step_job s EvTimer a job (reachable_jobs_inv s Hs) Hjob)
        as (job' & Hjob' & Hstep).
      exists job'. split; [done|].
      destruct Hstep as [j|j Hst|j Hst]; [by left|right..].
      * by left.
      * by right.
    + exists job. split; [by apply step_job_other|by left].
Qed.

(** ** No ceiling on the jobs in processing *)

Lemma run_timers_activeJobs k s :
  activeJobs (run s (replicate k EvTimer)) = activeJobs s.
Proof.
  revert s. induction k as [|k IH]; intros s; [done|].
  simpl. rewrite IH.
  by destruct (run_timer_cases s) as [->|(t & rest & _ & _ & ->)].
Qed.

Lemma elapse_activeJobs dt s : activeJobs (elapse dt s) = activeJobs s.
Proof.
  destruct (elapse_events dt s) as (k & ->). simpl.
  by rewrite run_timers_activeJobs.
Qed.

Lemma count_all_processing (f : nat → option ProcessingJob) (l : list nat) :
  (∀ x, x ∈ l → ∃ job, f x = Some job ∧ job_status job = processing) →
  length (filter (λ job, job_status job = processing) (omap f l)) = length l.
Proof.
  induction l as [|x l IH]; intros Hall; [done|]. simpl.
  destruct (Hall x) as (job & -> & Hst); [left|].
  rewrite filter_cons_True by done. simpl. f_equal.
  apply IH. intros y Hy. apply Hall. by right.
Qed.

Lemma run_timer_frame s :
  now (run_timer s) = now s
  ∧ length (heap (run_timer s)) = length (heap s)
  ∧ activeJobs (run_timer s) = activeJobs s
  ∧ selectedOperation (run_timer s) = selectedOperation s.
Proof.
  destruct (run_timer_cases s) as [->|(t & rest & _ & _ & ->)]; [done|].
  simpl. by rewrite length_alter.
Qed.

Lemma run_timers_frame k s :
  length (heap (run s (replicate k EvTimer))) = length (heap s)
  ∧ selectedOperation (run s (replicate k EvTimer)) = selectedOperation s.
Proof.
  revert s. induction k as [|k IH]; intros s; [done|]. simpl.
  destruct (IH (run_timer s)) as [-> ->].
  by destruct (run_timer_frame s) as (_ & -> & _ & ->).
Qed.

Lemma elapse_frame dt s :
  length (heap (elapse dt s)) = length (heap s)
  ∧ selectedOperation (elapse dt s) = selectedOperation s.
Proof.
  destruct (elapse_events dt s) as (k & ->). simpl.
  by destruct (run_timers_frame k (with_now (now s + dt) s)) as [-> ->].
Qed.

Lemma jobs_inv_elapse dt s : jobs_inv s → jobs_inv (elapse dt s).
Proof.
  intros Hinv. destruct (elapse_events dt s) as (k & ->).
  by apply jobs_inv_run.
Qed.

Lemma handleExecute_keeps s a job :
  heap s !! a = Some job →
  heap (ProcessingPanel.handleExecute s) !! a = Some job.
Proof.
  intros Hjob. destruct (selectedOperation s) as [t|] eqn:Hsel;
    [|by rewrite handleExecute_idle].
  destruct (handleExecute_unfold s t Hsel) as (_ & -> & _).
  by apply lookup_app_l_Some.
Qed.

Lemma submit_each_snoc gaps d s :
  submit_each (gaps ++ [d]) s
  = elapse d (ProcessingPanel.handleExecute (submit_each gaps s)).
Proof. revert s. induction gaps as [|g gaps IH]; intros s; simpl; by rewrite ?IH. Qed.

Lemma submit_each_keeps gaps s a job :
  jobs_inv s → heap s !! a = Some job →
  ∃ job', heap (submit_each gaps s) !! a = Some job'
          ∧ job_created_at job' = job_created_at job.
Proof.
  revert s job. induction gaps as [|d gaps IH]; intros s job Hinv Hjob; simpl.
  - by exists job.
  - destruct (elapse_events d (ProcessingPanel.handleExecute s)) as (k & Hk).
    destruct (run_job (ProcessingPanel.handleExecute s)
                (EvTick d :: replicate k EvTimer) a job)
      as (job2 & Hjob2 & _ & _ & _ & _ & Hc);
      [by apply jobs_inv_handleExecute|by apply handleExecute_keeps|].
    rewrite <- Hk in Hjob2.
    destruct (IH _ job2 (jobs_inv_elapse d _ (jobs_inv_handleExecute _ Hinv))
                Hjob2) as (job' & Hjob' & Hc').
    exists job'. split; [done|congruence].
Qed.

Lemma submit_each_spec gaps s t :
  jobs_inv s → selectedOperation s = Some t →
  jobs_inv (submit_each gaps s)
  ∧ selectedOperation (submit_each gaps s) = Some t
  ∧ now (submit_each gaps s) = now s + total gaps
  ∧ activeJobs (submit_each gaps s)
    = activeJobs s ++ seq (length (heap s)) (length gaps)
  ∧ length (heap (submit_each gaps s)) = (length (heap s) + length gaps)%nat
  ∧ ∀ a job, heap (submit_each gaps s) !! a = Some job →
             (length (heap s) ≤ a)%nat → now s ≤ job_created_at job.
Proof.
  revert s. induction gaps as [|d gaps IH]; intros s Hinv Hsel; simpl.
  - rewrite app_nil_r, N.add_0_r, Nat.add_0_r. split_and!; try done.
    intros a job Hjob%lookup_lt_Some. lia.
  - set (s0 := ProcessingPanel.handleExecute s).
    set (s1 := elapse d s0).
    destruct (handleExecute_unfold s t Hsel)
      as (En & Eh & _ & Ea & _ & _ & Eo & _). fold s0 in En, Eh, Ea, Eo.
    assert (Hinv0 : jobs_inv s0) by by apply jobs_inv_handleExecute.
    assert (Hinv1 : jobs_inv s1) by by apply jobs_inv_elapse.
    destruct (elapse_frame d s0) as [Hl1 Ho1]. fold s1 in Hl1, Ho1.
    destruct (elapse_spec d s0 Hinv0) as [Hn1 _]. fold s1 in Hn1.
    pose proof (elapse_activeJobs d s0) as Ha1. fold s1 in Ha1.
    destruct (IH s1 Hinv1) as (H1 & H2 & H3 & H4 & H5 & H6);
      [congruence|].
    rewrite H3, H4, H5, Hn1, Ha1, Hl1, En, Ea, Eh, length_app.
    rewrite <- (assoc_L (++)). simpl.
    split_and!; [done|done|lia|by rewrite Nat.add_1_r|lia|].
    intros a job Hjob Hge.
    destruct (decide (a = length (heap s))) as [->|Hne].
    + destruct (job_after_elapse s0 (length (heap s))
                  (ProcessingPanel.new_job s t) d Hinv0)
        as (job1 & Hjob1 & _); [by apply handleExecute_new_job|].
      fold s1 in Hjob1.
      destruct (elapse_events d s0) as (k & Hk).
      destruct (run_job s0 (EvTick d :: replicate k EvTimer)
                  (length (heap s)) (ProcessingPanel.new_job s t) Hinv0)
        as (job2 & Hjob2 & _ & _ & _ & _ & Hc);
        [by apply handleExecute_new_job|].
      rewrite <- Hk in Hjob2. fold s1 in Hjob2.
      destruct (submit_each_keeps gaps s1 _ job2 Hinv1 Hjob2)
        as (job' & Hjob' & Hc').
      simplify_eq. rewrite Hc', Hc. simpl. lia.
    + assert (now s1 ≤ job_created_at job); [|lia].
      apply (H6 a job Hjob). rewrite Hl1, Eh, length_app. simpl. lia.
Qed.

(** C4 (as the code has it). The simulation has no ceiling on the jobs
    in processing: submissions made one after the other, each followed by
    some time, the last one by 1000 ms or more and all within less than
    5000 ms, are all in processing at once, however many they are. *)
Theorem no_admission_ceiling s t gaps d :
  reachable s → selectedOperation s = Some t →
  1000 ≤ d → total gaps + d < 5000 →
  (S (length gaps) ≤ count_processing (submit_each (gaps ++ [d]) s))%nat.
Proof.
  intros Hs Hsel Hd Hall.
  destruct (submit_each_spec gaps s t (reachable_jobs_inv s Hs) Hsel)
    as (Hinv & Ho & Hn & Ha & Hl & Hc).
  rewrite submit_each_snoc.
  set (sm := submit_each gaps s) in *.
  destruct (handleExecute_unfold sm t Ho) as (En & Eh & _ & Ea & _).
  set (s0 := ProcessingPanel.handleExecute sm) in *.
  assert (Hinv0 : jobs_inv s0) by by apply jobs_inv_handleExecute.
  unfold count_processing, listing.
  rewrite elapse_activeJobs, Ea, Ha, <- (assoc_L (++)), omap_app, filter_app,
    length_app.
  rewrite (count_all_processing _
             (seq (length (heap s)) (length gaps) ++ [length (heap sm)])).
  { rewrite length_app, length_seq. simpl. lia. }
  intros a Hin.
  assert (Hrange : (length (heap s) ≤ a < length (heap s0))%nat).
  { rewrite Eh, length_app, Hl. simpl.
    apply elem_of_app in Hin as [[? ?]%elem_of_seq| ->%list_elem_of_singleton];
      lia. }
  destruct (lookup_lt_is_Some_2 (heap s0) a) as [job Hjob]; [lia|].
  destruct (job_after_elapse s0 a job d Hinv0 Hjob)
    as (job' & Hjob' & _ & _ & _ & Hst & _).
  exists job'. split; [done|]. rewrite Hst, En, Hn.
  pose proof (job_ok_created _ _ (inv_jobs s0 Hinv0 a job Hjob)) as Hle.
  rewrite En, Hn in Hle.
  assert (Hge : now s ≤ job_created_at job).
  { rewrite Eh in Hjob.
    apply lookup_snoc_Some in Hjob as [[_ Hjob]|[_ <-]].
    - apply (Hc a job Hjob). lia.
    - simpl. lia. }
  unfold status_at.
  rewrite decide_False by lia. by rewrite decide_True by lia.
Qed.

(** ** Layers of the map viewer *)

Lemma flip_visible_involutive {M D} (layer : LayerConfig M D) :
  MapViewer.flip_visible (MapViewer.flip_visible layer) = layer.
Proof.
  destruct layer. unfold MapViewer.flip_visible. simpl.
  by rewrite negb_involutive.
Qed.

(** C9. [toggleLayerVisibility] keeps the length and the order of the
    list; a layer whose id differs is unchanged; a layer whose id matches
    changes in its [visible] field only, which is negated; and toggling
    twice with the same id gives the list back. *)
Theorem toggleLayerVisibility_frame {M D} (layers : list (LayerConfig M D))
    (layerId : string) :
  length (MapViewer.toggleLayerVisibility layerId layers) = length layers
  ∧ (∀ i layer, layers !! i = Some layer →
       ∃ layer',
         MapViewer.toggleLayerVisibility layerId layers !! i = Some layer'
         ∧ (layer_id layer ≠ layerId → layer' = layer)
         ∧ (layer_id layer = layerId →
            layer_visible layer' = negb (layer_visible layer))
         ∧ layer_id layer' = layer_id layer
         ∧ layer_name layer' = layer_name layer
         ∧ layer_type layer' = layer_type layer
         ∧ layer_opacity layer' = layer_opacity layer
         ∧ layer_filePath layer' = layer_filePath layer
         ∧ layer_metadata layer' = layer_metadata layer
         ∧ layer_data layer' = layer_data layer)
  ∧ MapViewer.toggleLayerVisibility layerId
      (MapViewer.toggleLayerVisibility layerId layers) = layers.
Proof.
  unfold MapViewer.toggleLayerVisibility. split_and!.
  - apply length_fmap.
  - intros i layer Hi. rewrite list_lookup_fmap, Hi. simpl.
    eexists. split; [done|]. case_decide; split_and!; done.
  - rewrite <- list_fmap_compose. rewrite <- (list_fmap_id layers) at 2.
    apply list_fmap_ext. intros i layer _. simpl.
    destruct (decide (layer_id layer = layerId)) as [Hid|Hid].
    + rewrite decide_True by done. apply flip_visible_involutive.
    + by rewrite decide_False.
Qed.

(** ** File sizes *)

Lemma pow_lt_index k i j :
  2 ≤ k → k ^ N.of_nat i < k ^ N.of_nat j → (i < j)%nat.
Proof.
  intros Hk Hlt. apply Nat.lt_nge. intros Hle.
  assert (k ^ N.of_nat j ≤ k ^ N.of_nat i); [|lia].
  apply N.pow_le_mono_r; lia.
Qed.

(** The logarithm next to 1, and of 1024. *)
Lemma ln_le_sub1 x : (0 < x)%R → (ln x <= x - 1)%R.
Proof.
  intros Hx. pose proof (exp_ineq1_le (ln x)) as H.
  rewrite exp_ln in H by done. lra.
Qed.

Lemma ln_ge_sub1 x : (0 < x)%R → (1 - / x <= ln x)%R.
Proof.
  intros Hx. assert (Hi : (0 < / x)%R) by by apply Rinv_0_lt_compat.
  pose proof (ln_le_sub1 (/ x) Hi) as H. rewrite ln_Rinv in H by done. lra.
Qed.

Lemma ln_1024 : (5 < ln 1024 <= 10)%R.
Proof.
  replace 1024%R with (2 ^ 10)%R by lra.
  rewrite ln_pow by lra. simpl INR.
  pose proof ln_lt_2. pose proof (ln_le_sub1 2). lra.
Qed.

Lemma pow2_48 : (2 ^ 48 = 281474976710656)%R.
Proof. lra. Qed.
Lemma pow2_53 : (2 ^ 53 = 9007199254740992)%R.
Proof. lra. Qed.

Lemma div_le_bound A C y : (0 < C)%R → (A <= y * C)%R → (A / C <= y)%R.
Proof.
  intros HC H. replace y with (y * C / C)%R by (field; lra).
  apply Rmult_le_compat_r; [|done]. left. by apply Rinv_0_lt_compat.
Qed.

Lemma div_ge_bound A C y : (0 < C)%R → (y * C <= A)%R → (y <= A / C)%R.
Proof.
  intros HC H. replace y with (y * C / C)%R by (field; lra).
  apply Rmult_le_compat_r; [|done]. left. by apply Rinv_0_lt_compat.
Qed.

Lemma Rabs_le_bounds x b : (Rabs x <= b)%R → (- b <= x <= b)%R.
Proof.
  intros H. pose proof (Rle_abs x). pose proof (Rle_abs (- x)) as Hn.
  rewrite Rabs_Ropp in Hn. lra.
Qed.

(** The quotient of two approximate logarithms, rounded: [A] and [C]
    approximate [LB] and [LK], and [q] is [A / C] rounded. When [LB] is
    away from [j * LK] by the distance the logarithm of an integer keeps
    from that of a power of 1024, [q] is on the same side of [j]. *)
Section Quotient.
Variables A C LB LK q : R.
Variable j : nat.
Hypothesis HLB : (0 <= LB)%R.
Hypothesis HLK : (5 < LK <= 10)%R.
Hypothesis Hj : (j ≤ 4)%nat.
Hypothesis HA : (Rabs (A - LB) <= LB / 2 ^ 48)%R.
Hypothesis HC : (Rabs (C - LK) <= LK / 2 ^ 48)%R.
Hypothesis Hq : (Rabs (q - A / C) <= Rabs (A / C) / 2 ^ 53)%R.

Lemma quotient_facts :
  (0 <= INR j <= 4)%R
  ∧ (0 <= INR j * LK <= 40)%R
  ∧ (LB - LB / 2 ^ 48 <= A <= LB + LB / 2 ^ 48)%R
  ∧ (0 < C)%R
  ∧ (INR j * LK - INR j * LK / 2 ^ 48 <= INR j * C
     <= INR j * LK + INR j * LK / 2 ^ 48)%R
  ∧ (0 <= A / C)%R
  ∧ (A / C - A / C / 2 ^ 53 <= q <= A / C + A / C / 2 ^ 53)%R.
Proof.
  assert (HJ : (0 <= INR j <= 4)%R).
  { split; [apply pos_INR|]. replace 4%R with (INR 4) by (simpl; lra). by apply le_INR. }
  assert (Ht : (0 <= INR j * LK <= 40)%R) by nra.
  rewrite pow2_48 in *. rewrite pow2_53 in *.
  apply Rabs_le_bounds in HA, HC.
  assert (HC0 : (0 < C)%R) by lra.
  assert (Hx : (0 <= A / C)%R).
  { apply div_ge_bound; lra. }
  rewrite (Rabs_pos_eq _ Hx) in Hq. apply Rabs_le_bounds in Hq.
  split_and!; try lra; nra.
Qed.

Lemma quotient_below :
  (LB <= INR j * LK - / 2 ^ 40)%R → (q < INR j)%R.
Proof.
  intros Hm.
  destruct quotient_facts as (HJ & Ht & HA' & HC0 & HJC & Hx & Hq').
  rewrite pow2_48 in *. rewrite pow2_53 in *.
  replace (2 ^ 40)%R with 1099511627776%R in Hm by lra.
  assert (HJ1 : (1 <= INR j)%R).
  { destruct j as [|j']; [simpl in Hm; lra|].
    rewrite S_INR. pose proof (pos_INR j'). lra. }
  assert (Hxle : (A / C <= INR j * (1 - 2 / 9007199254740992))%R).
  { apply div_le_bound; [done|].
    replace (INR j * (1 - 2 / 9007199254740992) * C)%R
      with ((1 - 2 / 9007199254740992) * (INR j * C))%R by ring.
    lra. }
  lra.
Qed.

Lemma quotient_above :
  (INR j * LK + / 2 ^ 41 <= LB)%R → (INR j <= q)%R.
Proof.
  intros Hm.
  destruct quotient_facts as (HJ & Ht & HA' & HC0 & HJC & Hx & Hq').
  rewrite pow2_48 in *. rewrite pow2_53 in *.
  replace (2 ^ 41)%R with 2199023255552%R in Hm by lra.
  assert (Hxge : (INR j * (1 + 2 / 9007199254740992) <= A / C)%R).
  { apply div_ge_bound; [done|].
    replace (INR j * (1 + 2 / 9007199254740992) * C)%R
      with ((1 + 2 / 9007199254740992) * (INR j * C))%R by ring.
    lra. }
  lra.
Qed.

Lemma quotient_nonneg : (0 <= q)%R.
Proof.
  destruct quotient_facts as (HJ & Ht & HA' & HC0 & HJC & Hx & Hq').
  rewrite pow2_53 in *. lra.
Qed.
End Quotient.

Lemma N2R_pow (j : nat) : FileManager.N2R (1024 ^ N.of_nat j) = (1024 ^ j)%R.
Proof.
  unfold FileManager.N2R. rewrite N2Z.inj_pow, nat_N_Z. symmetry.
  apply pow_IZR.
Qed.

Lemma N2R_le a b : a ≤ b → (FileManager.N2R a <= FileManager.N2R b)%R.
Proof. intros H. apply IZR_le. lia. Qed.

Lemma N2R_succ_le a b : a < b → (FileManager.N2R a + 1 <= FileManager.N2R b)%R.
Proof.
  intros H. unfold FileManager.N2R. rewrite <- plus_IZR. apply IZR_le. lia.
Qed.

Lemma N2R_ge1 b : 1 ≤ b → (1 <= FileManager.N2R b)%R.
Proof. intros H. by apply (N2R_le 1). Qed.

Lemma ln_N2R_nonneg b : 1 ≤ b → (0 <= ln (FileManager.N2R b))%R.
Proof.
  intros H%N2R_ge1. rewrite <- ln_1.
  destruct H as [H| <-]; [|lra]. left. apply ln_increasing; lra.
Qed.

Lemma pow_1024_bounds (j : nat) :
  (j ≤ 4)%nat → (1 <= 1024 ^ j <= 2 ^ 40)%R.
Proof.
  intros Hj. do 5 (destruct j as [|j]; [simpl; lra|]). lia.
Qed.

(** The logarithm of an integer next to a power of 1024 is away from that
    of the power. *)
Lemma ln_below_pow (j : nat) b :
  (j ≤ 4)%nat → 1 ≤ b → b < 1024 ^ N.of_nat j →
  (ln (FileManager.N2R b) <= INR j * ln 1024 - / 2 ^ 40)%R.
Proof.
  intros Hj Hb Hlt. apply N2R_succ_le in Hlt. rewrite N2R_pow in Hlt.
  apply N2R_ge1 in Hb. destruct (pow_1024_bounds j Hj) as [HP1 HP2].
  set (B := FileManager.N2R b) in *. set (P := (1024 ^ j)%R) in *.
  assert (Hy : (0 < B / P)%R) by (apply Rdiv_lt_0_compat; lra).
  pose proof (ln_le_sub1 _ Hy) as Hln.
  unfold Rdiv in Hln at 1. rewrite ln_mult, ln_Rinv in Hln;
    [|lra|lra|apply Rinv_0_lt_compat; lra].
  unfold P in Hln at 1. rewrite ln_pow in Hln by lra.
  assert (Hq : (B / P <= 1 - / P)%R).
  { apply div_le_bound; [lra|]. field_simplify; lra. }
  assert (HP : (/ 2 ^ 40 <= / P)%R).
  { apply Rinv_le_contravar; lra. }
  lra.
Qed.

Lemma ln_above_pow (j : nat) b :
  (j ≤ 4)%nat → 1024 ^ N.of_nat j < b →
  (INR j * ln 1024 + / 2 ^ 41 <= ln (FileManager.N2R b))%R.
Proof.
  intros Hj Hlt. apply N2R_succ_le in Hlt. rewrite N2R_pow in Hlt.
  destruct (pow_1024_bounds j Hj) as [HP1 HP2].
  set (B := FileManager.N2R b) in *. set (P := (1024 ^ j)%R) in *.
  assert (Hy : (0 < B / P)%R) by (apply Rdiv_lt_0_compat; lra).
  pose proof (ln_ge_sub1 _ Hy) as Hln.
  unfold Rdiv in Hln at 2. rewrite ln_mult, ln_Rinv in Hln;
    [|lra|lra|apply Rinv_0_lt_compat; lra].
  unfold P in Hln at 2. rewrite ln_pow in Hln by lra.
  assert (Hinv : (/ (B / P) = P / B)%R) by (field; lra).
  rewrite Hinv in Hln.
  assert (Hq : (P / B <= 1 - / (2 * P))%R).
  { apply div_le_bound; [lra|].
    assert (Hi : (/ (2 * P) * (2 * P) = 1)%R) by (field; lra).
    assert (Hpos : (0 < / (2 * P))%R) by (apply Rinv_0_lt_compat; lra).
    nra. }
  assert (HP : (/ 2 ^ 41 <= / (2 * P))%R).
  { apply Rinv_le_contravar; [lra|].
    replace (2 ^ 41)%R with (2 * 2 ^ 40)%R by lra. lra. }
  lra.
Qed.

(** The unit index an accurate engine computes. *)
Section Index.
Context (Math_log : N → R) (fdiv : R → R → R) (b : N).
Hypothesis Hb : 1 ≤ b.
Hypothesis Hlog_b : FileManager.log_accurate Math_log b.
Hypothesis Hlog_k : FileManager.log_accurate Math_log FileManager.k.
Hypothesis Hdiv :
  FileManager.div_accurate fdiv (Math_log b) (Math_log FileManager.k).

Lemma unit_index_nonneg : (0 ≤ FileManager.unit_index Math_log fdiv b)%Z.
Proof.
  apply Zfloor_lub.
  apply (quotient_nonneg (Math_log b) (Math_log FileManager.k)
           (ln (FileManager.N2R b)) (ln 1024) _ 0);
    [by apply ln_N2R_nonneg|apply ln_1024|lia|done..].
Qed.

Lemma unit_index_upper (j : nat) :
  (j ≤ 4)%nat → b < 1024 ^ N.of_nat j →
  (FileManager.unit_index Math_log fdiv b < Z.of_nat j)%Z.
Proof.
  intros Hj Hlt. apply lt_IZR. rewrite <- INR_IZR_INZ.
  eapply Rle_lt_trans; [apply Zfloor_bound|].
  apply (quotient_below (Math_log b) (Math_log FileManager.k)
           (ln (FileManager.N2R b)) (ln 1024));
    [by apply ln_N2R_nonneg|apply ln_1024|done..|by apply ln_below_pow].
Qed.

Lemma unit_index_lower (j : nat) :
  (j ≤ 4)%nat → 1024 ^ N.of_nat j < b →
  (Z.of_nat j ≤ FileManager.unit_index Math_log fdiv b)%Z.
Proof.
  intros Hj Hlt. apply Zfloor_lub. rewrite <- INR_IZR_INZ.
  apply (quotient_above (Math_log b) (Math_log FileManager.k)
           (ln (FileManager.N2R b)) (ln 1024));
    [by apply ln_N2R_nonneg|apply ln_1024|done..|by apply ln_above_pow].
Qed.

Lemma unit_index_spec :
  b < 1024 ^ 4 →
  ∃ i : nat,
    FileManager.unit_index Math_log fdiv b = Z.of_nat i
    ∧ (i < 4)%nat
    ∧ 1024 ^ N.of_nat i ≤ b ≤ 1024 ^ N.of_nat (S i).
Proof.
  intros Hlt. pose proof unit_index_nonneg as H0.
  pose proof (unit_index_upper 4 (le_n _) Hlt) as H4.
  set (z := FileManager.unit_index Math_log fdiv b) in *.
  exists (Z.to_nat z). rewrite Z2Nat.id by done.
  split; [done|]. split; [lia|]. split.
  - apply N.le_ngt. intros Hi.
    pose proof (unit_index_upper (Z.to_nat z) ltac:(lia) Hi). fold z in H. lia.
  - apply N.le_ngt. intros Hi.
    pose proof (unit_index_lower (S (Z.to_nat z)) ltac:(lia) Hi). fold z in H.
    lia.
Qed.
End Index.

Lemma append_empty (s : string) : (s +:+ "")%string = s.
Proof.
  induction s as [|c s IH]; [done|].
  change (String c (s +:+ "") = String c s). by rewrite IH.
Qed.

Lemma append_assoc (s1 s2 s3 : string) :
  ((s1 +:+ s2) +:+ s3)%string = (s1 +:+ s2 +:+ s3)%string.
Proof.
  induction s1 as [|c s1 IH]; [done|].
  change (String c ((s1 +:+ s2) +:+ s3) = String c (s1 +:+ s2 +:+ s3)).
  by rewrite IH.
Qed.

Lemma hundredths_spec b d :
  0 < d →
  2 * d * FileManager.hundredths b d ≤ 200 * b + d
  ∧ 200 * b + d < 2 * d * (FileManager.hundredths b d + 1).
Proof.
  intros Hd. unfold FileManager.hundredths.
  pose proof (N.Div0.mul_div_le (200 * b + d) (2 * d)).
  pose proof (N.mul_succ_div_gt (200 * b + d) (2 * d)). lia.
Qed.

Lemma hundredths_bounds b d :
  0 < d → d ≤ b → b ≤ 1024 * d →
  100 ≤ FileManager.hundredths b d ≤ 102400.
Proof.
  intros Hd Hlo Hhi. unfold FileManager.hundredths. split.
  - apply N.div_le_lower_bound; lia.
  - apply N.lt_succ_r, N.Div0.div_lt_upper_bound. lia.
Qed.

(** C10. [formatFileSize] gives ["0 Bytes"] for 0 bytes. For an integer byte
    count [1 <= b < 1024^4], with [Math.log] accurate to a relative error of
    [2^-48] at [b] and at 1024 and the quotient of the two logarithms
    rounded to nearest, the unit index [Math.floor] computes lies within the
    four-entry unit array: it is an [i < 4] with [1024^i <= b <= 1024^(i+1)]
    (the floor of the logarithm of [b] to the base 1024, or one less at an
    exact power of 1024). The result is a number followed by a unit: the
    quotient [b / 1024^i] rounded to [n] hundredths, which is between 1 and
    1024, printed in decimal with its trailing zeros dropped, then a space
    and the unit of index [i] among Bytes, KB, MB, GB. *)
Theorem formatFileSize_safe Math_log fdiv :
  FileManager.formatFileSize Math_log fdiv 0 = "0 Bytes"%string
  ∧ ∀ b, 1 ≤ b < 1024 ^ 4 →
      FileManager.log_accurate Math_log b →
      FileManager.log_accurate Math_log 1024 →
      FileManager.div_accurate fdiv (Math_log b) (Math_log 1024) →
      ∃ (i : nat) (n : N) (unit frac : string),
        FileManager.unit_index Math_log fdiv b = Z.of_nat i
        ∧ (i < 4)%nat
        ∧ ["Bytes"; "KB"; "MB"; "GB"]%string !! i = Some unit
        ∧ 1024 ^ N.of_nat i ≤ b ≤ 1024 ^ N.of_nat (S i)
        ∧ 2 * 1024 ^ N.of_nat i * n ≤ 200 * b + 1024 ^ N.of_nat i
        ∧ 200 * b + 1024 ^ N.of_nat i < 2 * 1024 ^ N.of_nat i * (n + 1)
        ∧ 100 ≤ n ≤ 102400
        ∧ frac = (if decide (n mod 100 = 0) then ""
                  else if decide (n mod 10 = 0)
                       then "." +:+ pretty (n mod 100 / 10)
                       else "." +:+ pretty (n mod 100 / 10)
                                +:+ pretty (n mod 10))%string
        ∧ FileManager.formatFileSize Math_log fdiv b
          = (pretty (n / 100) +:+ frac +:+ " " +:+ unit)%string.
Proof.
  split; [done|]. intros b [Hlo Hhi] Hlog_b Hlog_k Hdiv.
  destruct (unit_index_spec Math_log fdiv b Hlo Hlog_b Hlog_k Hdiv Hhi)
    as (i & Hi & Hi4 & Hle & Hge).
  assert (Hd : 0 < 1024 ^ N.of_nat i).
  { apply N.neq_0_lt_0, N.pow_nonzero. done. }
  destruct (lookup_lt_is_Some_2 FileManager.sizes i Hi4) as [unit Hunit].
  set (n := FileManager.hundredths b (1024 ^ N.of_nat i)).
  destruct (hundredths_spec b _ Hd) as [Hn1 Hn2]. fold n in Hn1, Hn2.
  assert (Hn : 100 ≤ n ≤ 102400).
  { apply hundredths_bounds; [done..|].
    rewrite Nat2N.inj_succ, N.pow_succ_r' in Hge. done. }
  eexists i, n, unit, _.
  split_and!; [done..|apply Hn|apply Hn|reflexivity|].
  - unfold FileManager.formatFileSize. rewrite decide_False by lia.
    unfold FileManager.format_at, FileManager.unit_name,
      FileManager.quotient_hundredths.
    rewrite Hi, !decide_True by lia. rewrite Nat2Z.id, Hunit. simpl default.
    rewrite <- nat_N_Z, N2Z.id. change FileManager.k with 1024. fold n.
    unfold FileManager.number_to_string, FileManager.digit.
    rewrite append_assoc. f_equal.
    repeat case_decide; try lia; simpl; rewrite ?append_empty; done.
Qed.

(** The exact engine meets what is asked of the engine. *)
Lemma exact_engine_accurate b :
  1 ≤ b → FileManager.log_accurate FileManager.exact_log b.
Proof.
  intros Hb. unfold FileManager.log_accurate, FileManager.exact_log.
  rewrite Rminus_diag, Rabs_R0. pose proof (ln_N2R_nonneg b Hb).
  rewrite pow2_48. lra.
Qed.

Lemma Rdiv_accurate x y : FileManager.div_accurate Rdiv x y.
Proof.
  unfold FileManager.div_accurate. rewrite Rminus_diag, Rabs_R0.
  pose proof (Rabs_pos (x / y)). rewrite pow2_53. lra.
Qed.

Lemma formatFileSize_safe_witness :
  FileManager.log_accurate FileManager.exact_log 1536
  ∧ FileManager.log_accurate FileManager.exact_log 1024
  ∧ FileManager.div_accurate Rdiv (FileManager.exact_log 1536) (FileManager.exact_log 1024)
  ∧ FileManager.unit_index FileManager.exact_log Rdiv 1536 = 1%Z
  ∧ FileManager.formatFileSize FileManager.exact_log Rdiv 1536 = "1.5 KB"%string.
Proof.
  assert (H1 : FileManager.log_accurate FileManager.exact_log 1536)
    by (apply exact_engine_accurate; lia).
  assert (H2 : FileManager.log_accurate FileManager.exact_log 1024)
    by (apply exact_engine_accurate; lia).
  assert (H3 : FileManager.div_accurate Rdiv (FileManager.exact_log 1536)
                 (FileManager.exact_log 1024)) by apply Rdiv_accurate.
  split_and!; [done..| |];
    destruct (proj2 (formatFileSize_safe FileManager.exact_log Rdiv) 1536
                ltac:(lia) H1 H2 H3)
      as (i & n & unit & frac & Hi & Hi4 & Hunit & [Hlo Hhi] & Hn1 & Hn2
          & _ & Hfrac & Hstr).
  - do 4 (destruct i as [|i]; [cbn in Hlo, Hhi; try lia; done|]). lia.
  - assert (i = 1%nat) as ->.
    { do 4 (destruct i as [|i]; [cbn in Hlo, Hhi; lia|]). lia. }
    assert (n = 150) as -> by (cbn in Hn1, Hn2; lia).
    injection Hunit as <-. rewrite Hstr, Hfrac. reflexivity.
Defined.

(** The text for a byte count at a given unit index. *)
Example format_at_1536 : FileManager.format_at 1 1536 = "1.5 KB"%string.
Proof. vm_compute. reflexivity. Qed.

Example format_at_1029 : FileManager.format_at 1 1029 = "1 KB"%string.
Proof. vm_compute. reflexivity. Qed.

Example format_at_1075 : FileManager.format_at 1 1075 = "1.05 KB"%string.
Proof. vm_compute. reflexivity. Qed.

Example format_at_top :
  FileManager.format_at 3 (1024 ^ 4 - 1) = "1024 GB"%string.
Proof. vm_compute. reflexivity. Qed.

(** An exact power of 1024, at its own index and at the index one short. *)
Example format_at_power :
  FileManager.format_at 3 (1024 ^ 3) = "1 GB"%string
  ∧ FileManager.format_at 2 (1024 ^ 3) = "1024 MB"%string.
Proof. vm_compute. done. Qed.

(** Beyond the array. *)
Example format_at_beyond :
  FileManager.format_at 4 (1024 ^ 4) = "1 undefined"%string.
Proof. vm_compute. reflexivity. Qed.

(** Whatever the accurate engine, 1536 bytes are 1.5 KB. *)
Example formatFileSize_1536 Math_log fdiv :
  FileManager.log_accurate Math_log 1536 →
  FileManager.log_accurate Math_log 1024 →
  FileManager.div_accurate fdiv (Math_log 1536) (Math_log 1024) →
  FileManager.formatFileSize Math_log fdiv 1536 = "1.5 KB"%string.
Proof.
  intros H1 H2 H3.
  destruct (unit_index_spec Math_log fdiv 1536 ltac:(lia) H1 H2 H3
              ltac:(by vm_compute)) as (i & Hi & Hi4 & Hlo & Hhi).
  assert (i = 1%nat) as ->.
  { do 4 (destruct i as [|i]; [cbn in Hlo, Hhi; lia|]). lia. }
  unfold FileManager.formatFileSize. rewrite decide_False by lia.
  rewrite Hi. vm_compute. reflexivity.
Qed.

(** ** The scenarios, evaluated *)

Lemma reachable_demo evs : reachable (run (init 5) evs).
Proof. by exists 5, evs. Qed.

Lemma status_only_moves_forward_witness :
  ∃ job', heap (run (demo_submitted resample) [EvTick 5000; EvTimer; EvTimer])
            !! 0%nat = Some job'
          ∧ rtc forward (job_status (demo_job resample)) (job_status job')
          ∧ (terminal (job_status (demo_job resample)) →
             job_status job' = job_status (demo_job resample)).
Proof.
  apply (status_only_moves_forward (demo_submitted resample)
           [EvTick 5000; EvTimer; EvTimer] 0%nat (demo_job resample)).
  - exists 5, (ready resample ++ [EvExecute]). reflexivity.
  - vm_compute. reflexivity.
Defined.

Lemma result_and_error_exclusive_witness :
  ¬ (is_Some (Some "result_5.tif"%string) ∧ is_Some (@None string))
  ∧ (¬ terminal completed →
     Some "result_5.tif"%string = None ∧ @None string = None)
  ∧ (is_Some (Some "result_5.tif"%string) → completed = completed).
Proof.
  apply (result_and_error_exclusive demo_completed 0%nat
           (mkJob "5" resample completed 100 ["1"%string]
                  (Some "result_5.tif"%string) [] 5 None None)).
  - eexists _, _. reflexivity.
  - vm_compute. reflexivity.
Defined.

Lemma resample_job_lifecycle_witness :
  ∃ job,
    heap (ProcessingPanel.handleExecute (demo_ready resample))
      !! length (heap (demo_ready resample)) = Some job
    ∧ last (activeJobs (ProcessingPanel.handleExecute (demo_ready resample)))
      = Some (length (heap (demo_ready resample)))
    ∧ job_type job = resample ∧ job_input_files job = ["1"%string]
    ∧ job_status job = pending ∧ job_progress job = 0
    ∧ job_output_file job = None
    ∧ ∀ dt, ∃ job',
        heap (elapse dt (ProcessingPanel.handleExecute (demo_ready resample)))
          !! length (heap (demo_ready resample)) = Some job'
        ∧ (dt < 1000 →
           job_status job' = pending ∧ job_progress job' = 0
           ∧ job_output_file job' = None)
        ∧ (1000 ≤ dt < 5000 →
           job_status job' = processing ∧ job_progress job' = 50
           ∧ job_progress job < job_progress job'
           ∧ job_output_file job' = None)
        ∧ (5000 ≤ dt →
           job_status job' = completed ∧ job_progress job' = 100
           ∧ 50 < job_progress job'
           ∧ ∃ ref, job_output_file job' = Some ref
                    ∧ ref = ("result_" +:+ job_id job +:+ ".tif")%string
                    ∧ ref ≠ ""%string).
Proof.
  apply (resample_job_lifecycle (demo_ready resample) "1"%string).
  - eexists _, _. reflexivity.
  - vm_compute. reflexivity.
  - vm_compute. reflexivity.
Defined.

Lemma listing_oldest_first_witness :
  (∀ i j ji jj, (i ≤ j)%nat →
     listing demo_two_jobs !! i = Some ji →
     listing demo_two_jobs !! j = Some jj →
     job_created_at ji ≤ job_created_at jj)
  ∧ (∀ t, selectedOperation demo_two_jobs = Some t →
       ∃ job, listing (ProcessingPanel.handleExecute demo_two_jobs)
              = listing demo_two_jobs ++ [job]
              ∧ last (listing (ProcessingPanel.handleExecute demo_two_jobs))
                = Some job
              ∧ job_created_at job = now demo_two_jobs
              ∧ ∀ old, old ∈ listing demo_two_jobs →
                       job_created_at old ≤ job_created_at job).
Proof.
  apply (listing_oldest_first demo_two_jobs).
  eexists _, _. reflexivity.
Defined.

(** C8, refuted as stated: of two jobs submitted 2000 ms apart the list
    shows the older one first. *)
Lemma listing_not_newest_first :
  reachable demo_two_jobs
  ∧ job_created_at <$> listing demo_two_jobs = [5; 2005]
  ∧ (job_created_at <$> head (listing demo_two_jobs)) = Some 5
  ∧ (job_created_at <$> last (listing demo_two_jobs)) = Some 2005.
Proof. split; [apply reachable_demo|]. vm_compute. done. Qed.

Lemma mosaic_requirement_gates_selection_witness :
  activeTab demo_one_raster = tab_process
  ∧ length (ProcessingPanel.rasterFiles (uploadedFiles demo_one_raster))
    = 1%nat
  ∧ ProcessingPanel.canExecuteOperation (uploadedFiles demo_one_raster)
      (ProcessingPanel.operation_of mosaic) = false
  ∧ step demo_one_raster (EvSelectOperation mosaic) = demo_one_raster
  ∧ step demo_one_raster EvExecute = demo_one_raster
  ∧ selectedOperation (demo_ready mosaic) = Some mosaic
  ∧ (2 ≤ length (ProcessingPanel.rasterFiles
                   (uploadedFiles (demo_ready mosaic))))%nat.
Proof.
  destruct (mosaic_requirement_gates_selection demo_one_raster)
    as (Hrefused & _ & Hidle); [apply reachable_demo|].
  destruct (mosaic_requirement_gates_selection (demo_ready mosaic))
    as (_ & Hselected & _); [apply reachable_demo|].
  split_and!.
  - reflexivity.
  - reflexivity.
  - reflexivity.
  - apply Hrefused. vm_compute. lia.
  - apply Hidle. reflexivity.
  - reflexivity.
  - apply Hselected. reflexivity.
Defined.

(** C5, refuted as stated: with two rasters uploaded, mosaic chosen and a
    single raster ticked, the submission creates a job, a pending mosaic job
    with that single input, and fails with nothing. *)
Lemma mosaic_single_input_creates_job :
  reachable (demo_ready mosaic)
  ∧ selectedOperation (demo_ready mosaic) = Some mosaic
  ∧ selectedFiles (demo_ready mosaic) = ["1"%string]
  ∧ listing (demo_ready mosaic) = []
  ∧ listing (ProcessingPanel.handleExecute (demo_ready mosaic))
    = [demo_job mosaic]
  ∧ listing (step (demo_ready mosaic) EvExecute) = [demo_job mosaic].
Proof. split; [apply reachable_demo|]. vm_compute. done. Qed.

(** C7, at the failing input. The view withholds the delete button from a
    processing job ([job.status !== 'processing' && <Button ...>]), but
    [handleDelete] itself checks no status, and the timer callbacks assign
    to the job object without a new render: the row of a job that was
    pending when rendered keeps its button while the job moves on to
    processing, and the click on it removes the processing job from the
    list. *)
Lemma delete_removes_processing_job :
  reachable demo_stale_row
  ∧ job_status <$> listing demo_stale_row = [processing]
  ∧ job_id <$> listing demo_stale_row = ["5"%string]
  ∧ JobTracker.handleDelete (heap demo_stale_row) (activeJobs demo_stale_row)
                            "5" = []
  ∧ listing (step demo_stale_row (EvClickDelete 0)) = [].
Proof. split; [apply reachable_demo|]. vm_compute. done. Qed.

Lemma four_statuses_no_cancellation_witness :
  job_status (demo_job resample) ∈ status_values
  ∧ status_name <$> status_values
    = ["pending"; "processing"; "completed"; "failed"]%string
  ∧ status_name (job_status (demo_job resample)) ≠ "cancelled"%string
  ∧ ∃ job', heap (step (demo_submitted resample) (EvClickDelete 0)) !! 0%nat
            = Some job'
            ∧ (job_status job' = job_status (demo_job resample)
               ∨ (EvClickDelete 0 = EvTimer
                  ∧ job_status (demo_job resample) = pending
                  ∧ job_status job' = processing)
               ∨ (EvClickDelete 0 = EvTimer
                  ∧ job_status (demo_job resample) = processing
                  ∧ job_status job' = completed)).
Proof.
  apply (four_statuses_no_cancellation (demo_submitted resample)
           (EvClickDelete 0) 0%nat (demo_job resample)).
  - eexists _, _. reflexivity.
  - vm_compute. reflexivity.
Defined.

(** C2, refuted as stated: cancelled is not a value of the status, and
    nothing that can happen to the page takes a pending job to it. *)
Lemma no_cancelled_status :
  ("cancelled"%string ∉ status_name <$> status_values)
  ∧ heap (demo_submitted resample) !! 0%nat = Some (demo_job resample)
  ∧ ∀ e, ∃ job', heap (step (demo_submitted resample) e) !! 0%nat = Some job'
                 ∧ status_name (job_status job') ≠ "cancelled"%string.
Proof.
  split_and!.
  - apply (bool_decide_unpack _). vm_compute. exact I.
  - vm_compute. reflexivity.
  - intros e.
    destruct (step_job (demo_submitted resample) e 0%nat (demo_job resample))
      as (job' & Hjob' & _).
    + apply reachable_jobs_inv, reachable_demo.
    + vm_compute. reflexivity.
    + exists job'. split; [done|]. by destruct (job_status job').
Qed.

Lemma no_admission_ceiling_witness :
  (S (length demo_gaps)
   ≤ count_processing
       (submit_each (demo_gaps ++ [1000%N]) (demo_ready resample)))%nat.
Proof.
  apply (no_admission_ceiling (demo_ready resample) resample demo_gaps 1000).
  - eexists _, _. reflexivity.
  - vm_compute. reflexivity.
  - vm_compute. discriminate.
  - vm_compute. reflexivity.
Defined.

(** C4, refuted as stated: six jobs submitted 100 ms apart are all
    processing 1000 ms after the last submission, above a ceiling of five. *)
Lemma six_jobs_processing :
  reachable demo_six_jobs
  ∧ count_processing demo_six_jobs = 6%nat
  ∧ (5 < count_processing demo_six_jobs)%nat.
Proof. split; [apply reachable_demo|]. vm_compute. split; [done|lia]. Qed.

(** * Further properties of the components *)

(** ** The simulation runs every job to its end *)

Lemma no_elements {A} (l : list A) : (∀ x, x ∉ l) → l = [].
Proof. destruct l as [|x l]; [done|]. intros H. destruct (H x). left. Qed.

(** X1. Left alone for 5000 ms, the page has run every callback: no
    callback is pending any more and every job object, listed or deleted
    from the list, is completed with progress 100 and its result
    reference. *)
Theorem every_job_completes s a job :
  reachable s → heap s !! a = Some job →
  timers (elapse 5000 s) = []
  ∧ ∃ job', heap (elapse 5000 s) !! a = Some job'
            ∧ job_status job' = completed ∧ job_progress job' = 100
            ∧ job_output_file job'
              = Some ("result_" +:+ job_id job +:+ ".tif")%string
            ∧ job_error job' = None.
Proof.
  intros Hs Hjob. pose proof (reachable_jobs_inv s Hs) as Hinv.
  destruct (elapse_spec 5000 s Hinv) as [Hnow Hleft]. split.
  - apply no_elements. intros t [Ht Hdue]%Hleft.
    apply (inv_timers s Hinv) in Ht as (j & Hj & Hd & _).
    pose proof (job_ok_created _ _ (inv_jobs s Hinv _ j Hj)).
    destruct (kind t); simpl in Hd; lia.
  - destruct (job_after_elapse s a job 5000 Hinv Hjob)
      as (job' & Hjob' & _ & _ & _ & Hst & Hp & Ho & He).
    pose proof (job_ok_created _ _ (inv_jobs s Hinv a job Hjob)).
    assert (job_status job' = completed) as Hc.
    { rewrite Hst. unfold status_at. by rewrite !decide_False by lia. }
    exists job'. rewrite Hp, Ho, Hc. by rewrite decide_True.
Qed.

Lemma every_job_completes_witness :
  timers (elapse 5000 (demo_submitted resample)) = []
  ∧ ∃ job', heap (elapse 5000 (demo_submitted resample)) !! 0%nat = Some job'
            ∧ job_status job' = completed ∧ job_progress job' = 100
            ∧ job_output_file job'
              = Some ("result_" +:+ job_id (demo_job resample) +:+ ".tif")%string
            ∧ job_error job' = None.
Proof.
  apply (every_job_completes (demo_submitted resample) 0%nat
           (demo_job resample)).
  - eexists _, _. reflexivity.
  - vm_compute. reflexivity.
Defined.

(** ** The statistics of the job list *)

Lemma status_partition (jobs : list ProcessingJob) :
  (length (pendingJobs jobs) + length (processingJobs jobs)
   + length (completedJobs jobs) + length (failedJobs jobs))%nat
  = length jobs.
Proof.
  unfold pendingJobs, processingJobs, completedJobs, failedJobs.
  induction jobs as [|job jobs IH]; [done|].
  rewrite !filter_cons. simpl.
  destruct (job_status job); repeat case_decide; try done; simpl; lia.
Qed.

(** X2. The four numbers [JobTracker] shows (pending, processing,
    completed, failed) add up to the number of jobs it lists; no job of the
    page ever counts as failed, and the download button is rendered exactly
    for the completed jobs. *)
Theorem statistics_add_up s :
  reachable s →
  (length (pendingJobs (listing s)) + length (processingJobs (listing s))
   + length (completedJobs (listing s)) + length (failedJobs (listing s)))%nat
  = length (listing s)
  ∧ failedJobs (listing s) = []
  ∧ ∀ job, job ∈ listing s →
           (download_rendered job = true ↔ job ∈ completedJobs (listing s)).
Proof.
  intros Hs. split; [apply status_partition|].
  pose proof (reachable_jobs_inv s Hs) as Hinv.
  assert (Hok : ∀ job, job ∈ listing s → job_ok (now s) job).
  { intros job (a & _ & Hjob)%list_elem_of_omap. by eapply (inv_jobs s Hinv). }
  split.
  - apply no_elements. intros job [Hst Hin]%list_elem_of_filter.
    by destruct (Hok job Hin).
  - intros job Hin. destruct (Hok job Hin) as [_ _ Ho _ _ _].
    unfold download_rendered, completedJobs.
    rewrite list_elem_of_filter, Ho. unfold output_of.
    case_decide as Hst.
    + rewrite bool_decide_true by done. simpl. done.
    + rewrite bool_decide_false by done. simpl. split; [done|by intros [? _]].
Qed.

Lemma statistics_add_up_witness :
  (length (pendingJobs (listing demo_tracker))
   + length (processingJobs (listing demo_tracker))
   + length (completedJobs (listing demo_tracker))
   + length (failedJobs (listing demo_tracker)))%nat
  = length (listing demo_tracker)
  ∧ failedJobs (listing demo_tracker) = []
  ∧ ∀ job, job ∈ listing demo_tracker →
           (download_rendered job = true
            ↔ job ∈ completedJobs (listing demo_tracker)).
Proof.
  apply (statistics_add_up demo_tracker). eexists _, _. reflexivity.
Defined.

(** ** What the rows of the job list show *)

Lemma step_tracker s e :
  tracker (step s e) = tracker s
  ∨ tracker (step s e)
    = (if decide (activeTab (step s e) = tab_jobs)
       then JobTracker.render (heap (step s e)) (activeJobs (step s e))
       else []).
Proof.
  destruct e; simpl.
  - by left.
  - left. by destruct (run_timer_cases s) as [->|(t & rest & _ & _ & ->)].
  - by right.
  - unfold HomePage.setActiveTab. case_decide; [by left|by right].
  - by right.
  - case_decide; [by right|by left].
  - left. case_decide; [|done]. unfold ProcessingPanel.selectOperation.
    by case_match.
  - left. case_decide; [|done]. case_match; [|done].
    unfold ProcessingPanel.toggleFile. by case_bool_decide.
  - case_decide; [|by left]. case_match; [by left|].
    unfold ProcessingPanel.handleExecute.
    destruct (selectedOperation s); simpl; [right; reflexivity|by left].
  - unfold click_delete.
    destruct (tracker s !! k) as [row|]; [|by left].
    destruct (row_delete row); [|by left].
    destruct (heap s !! row_job row); [|by left].
    right. reflexivity.
Qed.

Lemma rows_lag s :
  reachable s →
  ∀ row, row ∈ tracker s →
    ∃ job, heap s !! row_job row = Some job
           ∧ rtc forward (row_status row) (job_status job)
           ∧ row_delete row = bool_decide (row_status row ≠ processing).
Proof.
  intros Hs. pose proof Hs as (t0 & evs & ->).
  induction evs as [|e evs IH] using rev_ind.
  - intros row Hrow. by apply elem_of_nil in Hrow.
  - rewrite run_snoc in *.
    assert (Hprev : reachable (run (init t0) evs)) by by eexists _, _.
    specialize (IH Hprev). set (s := run (init t0) evs) in *.
    intros row Hrow.
    destruct (step_tracker s e) as [Hsame|Hfresh].
    + rewrite Hsame in Hrow.
      destruct (IH row Hrow) as (job & Hjob & Hrtc & Hdel).
      destruct (step_job s e _ job (reachable_jobs_inv s Hprev) Hjob)
        as (job' & Hjob' & Hstep).
      exists job'. split_and!; [done| |done].
      destruct (job_step_status _ _ Hstep) as [->|Hfw]; [done|].
      by eapply rtc_r.
    + rewrite Hfresh in Hrow. case_decide; [|by apply elem_of_nil in Hrow].
      destruct (render_elem _ _ _ Hrow) as (job & _ & Hjob & Hst & Hdel).
      exists job. rewrite Hst. by split_and!.
Qed.

(** X3. A row of the job list never shows a status ahead of its job: the
    job object is in the status the row shows or further along
    pending -> processing -> completed, so a row that shows completed is
    right; the delete button goes by the status shown; and a new render
    makes every row show the status of its job. *)
Theorem rows_never_ahead s row :
  reachable s → row ∈ tracker s →
  (∃ job, heap s !! row_job row = Some job
          ∧ rtc forward (row_status row) (job_status job)
          ∧ (row_status row = completed → job_status job = completed)
          ∧ (row_delete row = true ↔ row_status row ≠ processing))
  ∧ ∀ row', row' ∈ tracker (step s EvRender) →
      ∃ job, heap s !! row_job row' = Some job
             ∧ row_status row' = job_status job.
Proof.
  intros Hs Hrow. split.
  - destruct (rows_lag s Hs row Hrow) as (job & Hjob & Hrtc & Hdel).
    exists job. split_and!; [done..| |].
    + intros Hc. rewrite Hc in Hrtc.
      apply (rtc_forward_terminal completed); [done|by left].
    + rewrite Hdel. apply bool_decide_eq_true.
  - simpl. intros row'. case_decide; [|by intros ?%elem_of_nil].
    intros (job & _ & Hjob & Hst & _)%render_elem. by exists job.
Qed.

Lemma rows_never_ahead_witness :
  (∃ job, heap demo_stale_row !! row_job (mkRow 0 pending true) = Some job
          ∧ rtc forward (row_status (mkRow 0 pending true)) (job_status job)
          ∧ (row_status (mkRow 0 pending true) = completed →
             job_status job = completed)
          ∧ (row_delete (mkRow 0 pending true) = true
             ↔ row_status (mkRow 0 pending true) ≠ processing))
  ∧ ∀ row', row' ∈ tracker (step demo_stale_row EvRender) →
      ∃ job, heap demo_stale_row !! row_job row' = Some job
             ∧ row_status row' = job_status job.
Proof.
  apply (rows_never_ahead demo_stale_row (mkRow 0 pending true)).
  - eexists _, _. reflexivity.
  - vm_compute. constructor.
Defined.

(** ** Job ids *)

(** X4. The id of a job is the clock reading [Date.now()] gave at its
    submission, in decimal, so ids are not unique. The id of every job is
    the decimal of a reading no later than the clock. Two submissions at the
    same clock reading give two jobs with the same id, and [handleDelete]
    called with that id removes both from the list. A job submitted after
    the clock has moved on has an id no earlier job has, and [handleDelete]
    called with it removes that job alone. *)
Theorem job_ids_are_clock_readings s t :
  reachable s → selectedOperation s = Some t →
  (∀ a ja, heap s !! a = Some ja → ∃ r, r ≤ now s ∧ job_id ja = pretty r)
  ∧ (∃ j1 j2,
       let s2 := ProcessingPanel.handleExecute
                   (ProcessingPanel.handleExecute s) in
       heap s2 !! length (heap s) = Some j1
       ∧ heap s2 !! S (length (heap s)) = Some j2
       ∧ job_id j1 = pretty (now s) ∧ job_id j2 = pretty (now s)
       ∧ length (heap s) ∈ activeJobs s2
       ∧ S (length (heap s)) ∈ activeJobs s2
       ∧ (length (heap s)
          ∉ JobTracker.handleDelete (heap s2) (activeJobs s2) (job_id j1))
       ∧ (S (length (heap s))
          ∉ JobTracker.handleDelete (heap s2) (activeJobs s2) (job_id j1)))
  ∧ (∀ dt, 0 < dt →
     ∃ jn,
       let s1 := ProcessingPanel.handleExecute (step s (EvTick dt)) in
       heap s1 !! length (heap s) = Some jn
       ∧ job_id jn = pretty (now s + dt)
       ∧ (∀ a ja, heap s !! a = Some ja → job_id ja ≠ job_id jn)
       ∧ ∀ a, a ∈ JobTracker.handleDelete (heap s1) (activeJobs s1)
                    (job_id jn)
              ↔ a ∈ activeJobs s).
Proof.
  intros Hs Hsel. pose proof (reachable_jobs_inv s Hs) as Hinv.
  assert (Hids : ∀ a ja, heap s !! a = Some ja →
                         ∃ r, r ≤ now s ∧ job_id ja = pretty r).
  { intros a ja Ha. pose proof (inv_jobs s Hinv a ja Ha) as Hok.
    exists (job_created_at ja). split; [by apply job_ok_created|].
    by destruct Hok. }
  split_and!; [done| |].
  - set (s1 := ProcessingPanel.handleExecute s).
    destruct (handleExecute_unfold s t Hsel)
      as (Hn1 & Hh1 & _ & Ha1 & _ & _ & Hsel1 & _). fold s1 in Hn1, Hh1, Ha1, Hsel1.
    destruct (handleExecute_unfold s1 t Hsel1) as (_ & Hh2 & _ & Ha2 & _).
    assert (Hlen : length (heap s1) = S (length (heap s))).
    { rewrite Hh1, length_app. simpl. lia. }
    exists (ProcessingPanel.new_job s t), (ProcessingPanel.new_job s1 t).
    simpl.
    assert (L1 : heap (ProcessingPanel.handleExecute s1) !! length (heap s)
                 = Some (ProcessingPanel.new_job s t)).
    { rewrite Hh2, lookup_app_l by lia. rewrite Hh1.
      by apply list_lookup_middle. }
    assert (L2 : heap (ProcessingPanel.handleExecute s1) !! S (length (heap s))
                 = Some (ProcessingPanel.new_job s1 t)).
    { rewrite Hh2, <- Hlen. by apply list_lookup_middle. }
    split_and!; [done|done|done|by rewrite Hn1| | | |].
    + rewrite Ha2, Ha1. apply elem_of_app. left. apply elem_of_app. right.
      left.
    + rewrite Ha2, Hlen. apply elem_of_app. right. left.
    + rewrite handleDelete_spec, L1. simpl. tauto.
    + rewrite handleDelete_spec, L2. simpl. rewrite Hn1. tauto.
  - intros dt Hdt. set (s' := step s (EvTick dt)).
    assert (Hsel' : selectedOperation s' = Some t) by done.
    destruct (handleExecute_unfold s' t Hsel') as (_ & Hh & _ & Ha & _).
    exists (ProcessingPanel.new_job s' t). simpl.
    assert (Hfresh : ∀ a ja, heap s !! a = Some ja →
                             job_id ja ≠ pretty (now s + dt)).
    { intros a ja Hja. destruct (Hids a ja Hja) as (r & Hr & ->).
      intros Heq%pretty_N_inj. lia. }
    split_and!; [by rewrite Hh; apply list_lookup_middle|done|done|].
    intros a. rewrite handleDelete_spec, Ha, Hh. simpl.
    pose proof (reachable_list_inv s Hs) as [Hrefs _ _].
    rewrite elem_of_app, list_elem_of_singleton. split.
    + intros [[Hin| ->] Hne]; [done|].
      rewrite list_lookup_middle in Hne by done. by destruct Hne.
    + intros Hin. split; [by left|].
      destruct (lookup_lt_is_Some_2 (heap s) a (Hrefs a Hin)) as [ja Hja].
      rewrite lookup_app_l by by apply Hrefs. rewrite Hja. simpl.
      intros [= Heq]. by apply (Hfresh a ja Hja).
Qed.

Lemma job_ids_are_clock_readings_witness :
  reachable (demo_ready resample)
  ∧ selectedOperation (demo_ready resample) = Some resample
  ∧ ∃ j1 j2,
      let s2 := ProcessingPanel.handleExecute
                  (ProcessingPanel.handleExecute (demo_ready resample)) in
      heap s2 !! length (heap (demo_ready resample)) = Some j1
      ∧ heap s2 !! S (length (heap (demo_ready resample))) = Some j2
      ∧ job_id j1 = pretty (now (demo_ready resample))
      ∧ job_id j2 = pretty (now (demo_ready resample))
      ∧ length (heap (demo_ready resample)) ∈ activeJobs s2
      ∧ S (length (heap (demo_ready resample))) ∈ activeJobs s2
      ∧ (length (heap (demo_ready resample))
         ∉ JobTracker.handleDelete (heap s2) (activeJobs s2) (job_id j1))
      ∧ (S (length (heap (demo_ready resample)))
         ∉ JobTracker.handleDelete (heap s2) (activeJobs s2) (job_id j1)).
Proof.
  assert (Hs : reachable (demo_ready resample)) by apply reachable_demo.
  split; [exact Hs|]. split; [reflexivity|].
  apply (job_ids_are_clock_readings (demo_ready resample) resample Hs).
  reflexivity.
Defined.

(** Two clicks on the execute button at clock 5: both jobs have the id 5,
    and the delete button of either row empties the list. *)
Example same_id_deleted_together :
  job_id <$> listing (run (demo_ready resample) [EvExecute; EvExecute])
  = ["5"; "5"]%string
  ∧ listing (run (demo_ready resample)
               [EvExecute; EvExecute; EvTab tab_jobs; EvClickDelete 0])
    = [].
Proof. by vm_compute. Qed.

(** ** Selected files and job inputs *)

Lemma inputs_inv_frame s s' :
  heap s' = heap s → uploadedFiles s' = uploadedFiles s →
  selectedFiles s' = selectedFiles s → inputs_inv s → inputs_inv s'.
Proof. intros Hh Hu Hf [H1 H2 H3]. split; rewrite ?Hh, ?Hu, ?Hf; done. Qed.

Lemma alter_callback_fields (h : list ProcessingJob) i k a job :
  alter (ProcessingPanel.callback k) i h !! a = Some job →
  ∃ job', h !! a = Some job'
          ∧ job_input_files job' = job_input_files job
          ∧ job_parameters job' = job_parameters job
          ∧ job_updated_at job' = job_updated_at job
          ∧ job_type job' = job_type job.
Proof.
  rewrite list_lookup_alter. case_decide as Hi; [subst a|by eauto 10].
  destruct (h !! i) as [job'|]; [|done]. intros [= <-]. exists job'.
  by destruct k.
Qed.

Lemma has_checkbox_uploaded s fileId :
  ProcessingPanel.has_checkbox s fileId = true →
  fileId ∈ file_id <$> uploadedFiles s.
Proof.
  unfold ProcessingPanel.has_checkbox.
  destruct (selectedOperation s); [|done].
  unfold ProcessingPanel.rasterFiles, ProcessingPanel.vectorFiles.
  intros [H|[_ H]%andb_prop]%orb_prop;
    apply bool_decide_eq_true in H;
    apply list_elem_of_fmap in H as (f & -> & [_ Hf]%list_elem_of_filter);
    by apply list_elem_of_fmap_2.
Qed.

Lemma inputs_inv_step s e :
  panel_inv s → inputs_inv s → inputs_inv (step s e).
Proof.
  intros Hpanel Hinv. pose proof Hinv as [H1 H2 H3]. destruct e; simpl.
  - by apply (inputs_inv_frame s).
  - destruct (run_timer_cases s) as [->|(t & rest & _ & _ & ->)]; [done|].
    split; simpl; [done..|].
    intros a job (job' & Hjob' & <- & <- & <- & _)%alter_callback_fields.
    by eapply H3.
  - by apply (inputs_inv_frame s).
  - unfold HomePage.setActiveTab. case_decide; [done|].
    split; simpl; [apply NoDup_nil_2|by intros x ?%elem_of_nil|done].
  - split; simpl; [done| |done].
    intros x Hx%H2. rewrite fmap_app, elem_of_app. by left.
  - case_decide as Htab; [|done].
    destruct (inv_mounted s Hpanel) as [_ Hnone]; [by rewrite Htab|].
    split; simpl; [done| |done]. rewrite Hnone. by intros x ?%elem_of_nil.
  - case_decide; [|done]. unfold ProcessingPanel.selectOperation.
    case_match; [|done]. by apply (inputs_inv_frame s).
  - case_decide; [|done].
    destruct (ProcessingPanel.has_checkbox s fileId) eqn:Hbox; [|done].
    apply has_checkbox_uploaded in Hbox.
    unfold ProcessingPanel.toggleFile. case_bool_decide as Hsel.
    + split; simpl; [by apply NoDup_filter| |done].
      intros x [_ Hx]%list_elem_of_filter. by apply H2.
    + split; simpl; [| |done].
      * apply NoDup_app. split_and!; [done| |apply NoDup_singleton].
        by intros x Hx ->%list_elem_of_singleton.
      * intros x [Hx| ->%list_elem_of_singleton]%elem_of_app; [by apply H2|done].
  - case_decide; [|done].
    destruct (ProcessingPanel.execute_disabled s) eqn:Hdis; [done|].
    apply orb_false_elim in Hdis as [Hop Hfiles].
    apply bool_decide_eq_false in Hop, Hfiles.
    destruct (selectedOperation s) as [t|] eqn:Hsel; [|done].
    destruct (handleExecute_unfold s t Hsel)
      as (_ & Hh & _ & _ & _ & Hu & _ & Hf).
    split; rewrite ?Hh, ?Hu, ?Hf; [done..|].
    intros a job [[_ Hjob]|[_ <-]]%lookup_snoc_Some; [by eapply H3|].
    simpl. by split_and!.
  - unfold click_delete.
    repeat case_match; try done; by apply (inputs_inv_frame s).
Qed.

Lemma reachable_inputs_inv s : reachable s → inputs_inv s.
Proof.
  intros Hs. pose proof Hs as (t0 & evs & ->).
  induction evs as [|e evs IH] using rev_ind.
  - split; simpl; [apply NoDup_nil_2|by intros x ?%elem_of_nil|done].
  - rewrite run_snoc in *.
    assert (Hprev : reachable (run (init t0) evs)) by by eexists _, _.
    apply inputs_inv_step; [by apply reachable_panel_inv|by apply IH].
Qed.

(** X5. Whatever is done on the page, a file is selected once at most in
    the processing panel and every selected file is an uploaded one; and
    every job was created with at least one input file and none twice, with
    no parameters, and its update time is never set. *)
Theorem job_inputs_well_formed s :
  reachable s →
  NoDup (selectedFiles s)
  ∧ (∀ x, x ∈ selectedFiles s → x ∈ file_id <$> uploadedFiles s)
  ∧ ∀ a job, heap s !! a = Some job →
      job_input_files job ≠ [] ∧ NoDup (job_input_files job)
      ∧ job_parameters job = [] ∧ job_updated_at job = None.
Proof. intros Hs. by destruct (reachable_inputs_inv s Hs). Qed.

Lemma job_inputs_well_formed_witness :
  NoDup (selectedFiles demo_two_jobs)
  ∧ (∀ x, x ∈ selectedFiles demo_two_jobs →
          x ∈ file_id <$> uploadedFiles demo_two_jobs)
  ∧ ∀ a job, heap demo_two_jobs !! a = Some job →
      job_input_files job ≠ [] ∧ NoDup (job_input_files job)
      ∧ job_parameters job = [] ∧ job_updated_at job = None.
Proof.
  apply (job_inputs_well_formed demo_two_jobs). eexists _, _. reflexivity.
Defined.

(** ** The file size shown with the metadata *)

Lemma N2Q_pow_succ (j : nat) :
  (MetadataViewer.N2Q (1024 ^ N.of_nat (S j))
   == 1024 * MetadataViewer.N2Q (1024 ^ N.of_nat j))%Q.
Proof.
  unfold MetadataViewer.N2Q.
  rewrite Nat2N.inj_succ, N.pow_succ_r', N2Z.inj_mul, inject_Z_mult.
  reflexivity.
Qed.

(** What the loop computes, from any [size] and [unitIndex]: the index
    only grows, up to 4; the size is divided by 1024 once for each increment,
    and is at least 1 after a division; and with four rounds or more for an
    index that starts at 0 the loop is left because its condition fails, not
    because the rounds run out. *)
Lemma shrink_spec fuel size i :
  let r := MetadataViewer.shrink fuel size i in
  (i ≤ r.2)%nat
  ∧ (r.1 * MetadataViewer.N2Q (1024 ^ N.of_nat (r.2 - i)) == size)%Q
  ∧ (r.2 ≠ i → (1 <= r.1)%Q)
  ∧ ((4 ≤ fuel + i)%nat → (r.1 < 1024)%Q ∨ (4 ≤ r.2)%nat)
  ∧ ((i ≤ 4)%nat → (r.2 ≤ 4)%nat).
Proof.
  revert size i. induction fuel as [|fuel IH]; intros size i; simpl.
  - rewrite Nat.sub_diag. split_and!; try done.
    + unfold MetadataViewer.N2Q. simpl. ring.
    + intros. right. lia.
  - destruct (Qle_bool 1024 size) eqn:Hsz; simpl.
    2:{ rewrite Nat.sub_diag. split_and!; try done.
        - unfold MetadataViewer.N2Q. simpl. ring.
        - intros _. left. apply Qnot_le_lt. intros H%Qle_bool_iff.
          congruence. }
    apply Qle_bool_iff in Hsz.
    case_bool_decide as Hi; simpl.
    2:{ rewrite Nat.sub_diag. split_and!; try done.
        - unfold MetadataViewer.N2Q. simpl. ring.
        - intros _. right. lia. }
    destruct (IH (size / 1024)%Q (S i)) as (Hle & Heq & Hone & Hexit & Hmax).
    set (r := MetadataViewer.shrink fuel (size / 1024) (S i)) in *.
    split_and!.
    + lia.
    + replace (r.2 - i)%nat with (S (r.2 - S i)) by lia.
      rewrite N2Q_pow_succ.
      transitivity
        (1024 * (r.1 * MetadataViewer.N2Q (1024 ^ N.of_nat (r.2 - S i))))%Q;
        [ring|].
      rewrite Heq. field.
    + intros _. destruct (decide (r.2 = S i)) as [Hr|Hr]; [|by apply Hone].
      rewrite Hr, Nat.sub_diag in Heq.
      assert (Hr1 : (r.1 == size / 1024)%Q).
      { rewrite <- Heq. unfold MetadataViewer.N2Q. simpl. ring. }
      rewrite Hr1. apply Qle_shift_div_l; [reflexivity|].
      by rewrite Qmult_1_l.
    + intros Hf. apply Hexit. lia.
    + intros _. apply Hmax. lia.
Qed.

Lemma N2Q_le a b : (MetadataViewer.N2Q a <= MetadataViewer.N2Q b)%Q ↔ a ≤ b.
Proof. unfold MetadataViewer.N2Q. rewrite <- Zle_Qle. lia. Qed.

Lemma N2Q_lt a b : (MetadataViewer.N2Q a < MetadataViewer.N2Q b)%Q ↔ a < b.
Proof. unfold MetadataViewer.N2Q. rewrite <- Zlt_Qlt. lia. Qed.

Lemma N2Q_pos a : 0 < a → (0 < MetadataViewer.N2Q a)%Q.
Proof. intros Ha. by apply (N2Q_lt 0). Qed.

Lemma scaled_spec bytes :
  let r := MetadataViewer.scaled bytes in
  (r.1 * MetadataViewer.N2Q (1024 ^ N.of_nat r.2)
   == MetadataViewer.N2Q bytes)%Q
  ∧ (r.2 ≠ 0%nat → (1 <= r.1)%Q)
  ∧ ((r.1 < 1024)%Q ∨ r.2 = 4%nat)
  ∧ (r.2 ≤ 4)%nat.
Proof.
  destruct (shrink_spec (length MetadataViewer.units)
              (MetadataViewer.N2Q bytes) 0) as (_ & Heq & Hone & Hexit & Hmax).
  fold (MetadataViewer.scaled bytes) in *.
  rewrite Nat.sub_0_r in Heq. simpl in *.
  split_and!; [done|done| |lia].
  destruct Hexit as [?|?]; [lia|by left|right; lia].
Qed.


Lemma scaled_bounds b :
  1 ≤ b →
  let i := (MetadataViewer.scaled b).2 in
  1024 ^ N.of_nat i ≤ b ∧ (b < 1024 ^ N.of_nat (S i) ∨ i = 4%nat).
Proof.
  intros Hb. destruct (scaled_spec b) as (Heq & Hone & Hexit & Hmax).
  destruct (MetadataViewer.scaled b) as [size i]; simpl in *.
  assert (Hpos : (0 < MetadataViewer.N2Q (1024 ^ N.of_nat i))%Q).
  { apply N2Q_pos. apply N.neq_0_lt_0, N.pow_nonzero. lia. }
  assert (Hsize : (1 <= size)%Q).
  { destruct (decide (i = 0%nat)) as [->|Hi]; [|by apply Hone].
    assert (Hs : (size == MetadataViewer.N2Q b)%Q).
    { rewrite <- Heq. unfold MetadataViewer.N2Q. simpl. ring. }
    rewrite Hs. by apply (N2Q_le 1). }
  split.
  - apply N2Q_le. rewrite <- Heq.
    rewrite <- (Qmult_1_l (MetadataViewer.N2Q (1024 ^ N.of_nat i))) at 1.
    apply Qmult_le_compat_r; [done|]. by apply Qlt_le_weak.
  - destruct Hexit as [Hlt| ->]; [left|by right].
    apply N2Q_lt. rewrite <- Heq, N2Q_pow_succ.
    by apply Qmult_lt_compat_r.
Qed.

(** X7. The two formatters choose the same unit up to the end of the
    smaller array, and part ways beyond it. With [Math.log] accurate to a
    relative error of [2^-48] and the division rounded to nearest, for a
    byte count from 1 to below [1024^4] the index [FileManager] computes is
    the index the loop of the metadata viewer stops at, unless the count is
    an exact power of 1024, where the rounded quotient of logarithms may
    fall one short; above [1024^4] bytes the metadata viewer shows TB,
    where [FileManager] reads past its four units and prints [undefined]. *)
Theorem formatters_choose_same_unit Math_log fdiv b :
  1 ≤ b →
  FileManager.log_accurate Math_log b →
  FileManager.log_accurate Math_log 1024 →
  FileManager.div_accurate fdiv (Math_log b) (Math_log 1024) →
  (b < 1024 ^ 4 →
   FileManager.unit_index Math_log fdiv b
   = Z.of_nat (MetadataViewer.scaled b).2
   ∨ (b = 1024 ^ N.of_nat (MetadataViewer.scaled b).2
      ∧ FileManager.unit_index Math_log fdiv b
        = (Z.of_nat (MetadataViewer.scaled b).2 - 1)%Z))
  ∧ (1024 ^ 4 < b →
     MetadataViewer.units !! (MetadataViewer.scaled b).2 = Some "TB"%string
     ∧ FileManager.unit_name (FileManager.unit_index Math_log fdiv b)
       = "undefined"%string).
Proof.
  intros Hb Hlog_b Hlog_k Hdiv.
  destruct (scaled_bounds b Hb) as [Hlo Hhi].
  destruct (scaled_spec b) as (_ & _ & _ & Hmax).
  set (m := (MetadataViewer.scaled b).2) in *.
  split.
  - intros Hlt.
    destruct (unit_index_spec Math_log fdiv b Hb Hlog_b Hlog_k Hdiv Hlt)
      as (i & Hi & _ & Hilo & Hihi).
    assert (Hm : b < 1024 ^ N.of_nat (S m)).
    { destruct Hhi as [?| ->]; [done|]. change (N.of_nat 4) with 4 in Hlo.
      lia. }
    assert (Him : (i ≤ m)%nat).
    { apply Nat.lt_succ_r, (pow_lt_index 1024); [done|lia]. }
    assert (Hmi : (m ≤ S i)%nat).
    { apply Nat.le_ngt. intros Hgt.
      assert (1024 ^ N.of_nat (S i) < 1024 ^ N.of_nat m); [|lia].
      apply N.pow_lt_mono_r; lia. }
    destruct (decide (i = m)) as [->|Hne]; [by left|right].
    assert (m = S i) as -> by lia. split; [lia|]. rewrite Hi. lia.
  - intros Hgt.
    assert (m = 4%nat) as ->.
    { destruct Hhi as [Hlt|?]; [|done].
      destruct (decide (m = 4%nat)) as [|Hne]; [done|].
      assert (1024 ^ N.of_nat (S m) ≤ 1024 ^ 4); [|lia].
      change (1024 ^ 4) with (1024 ^ N.of_nat 4).
      apply N.pow_le_mono_r; lia. }
    split; [done|].
    pose proof (unit_index_lower Math_log fdiv b Hb Hlog_b Hlog_k Hdiv 4
                  (le_n _) Hgt) as Hi.
    unfold FileManager.unit_name. rewrite decide_True by lia.
    rewrite lookup_ge_None_2; [done|]. simpl. lia.
Qed.

Lemma formatters_choose_same_unit_witness :
  1 ≤ 1024 ^ 4 + 1
  ∧ FileManager.log_accurate FileManager.exact_log (1024 ^ 4 + 1)
  ∧ FileManager.log_accurate FileManager.exact_log 1024
  ∧ FileManager.div_accurate Rdiv (FileManager.exact_log (1024 ^ 4 + 1))
      (FileManager.exact_log 1024)
  ∧ MetadataViewer.units !! (MetadataViewer.scaled (1024 ^ 4 + 1)).2
    = Some "TB"%string
  ∧ FileManager.unit_name
      (FileManager.unit_index FileManager.exact_log Rdiv (1024 ^ 4 + 1))
    = "undefined"%string.
Proof.
  assert (H0 : 1 ≤ 1024 ^ 4 + 1) by by vm_compute.
  assert (H1 : FileManager.log_accurate FileManager.exact_log (1024 ^ 4 + 1))
    by by apply exact_engine_accurate.
  assert (H2 : FileManager.log_accurate FileManager.exact_log 1024)
    by by apply exact_engine_accurate.
  assert (H3 : FileManager.div_accurate Rdiv
                 (FileManager.exact_log (1024 ^ 4 + 1))
                 (FileManager.exact_log 1024)) by apply Rdiv_accurate.
  destruct (formatters_choose_same_unit FileManager.exact_log Rdiv
              (1024 ^ 4 + 1) H0 H1 H2 H3) as [_ Hbig].
  destruct Hbig as [HTB Hundef]; [by vm_compute|].
  by split_and!.
Defined.

Example metadata_formatFileSize_1536 :
  MetadataViewer.formatFileSize 1536 = "1.5 KB"%string.
Proof. vm_compute. reflexivity. Qed.

(** 1048575 bytes are 1023.999 KB, which rounds to 1024.0. *)
Example metadata_formatFileSize_round_up :
  MetadataViewer.formatFileSize (1024 ^ 2 - 1) = "1024.0 KB"%string.
Proof. vm_compute. reflexivity. Qed.

Example metadata_formatFileSize_beyond :
  MetadataViewer.formatFileSize (1024 ^ 5) = "1024.0 TB"%string.
Proof. vm_compute. reflexivity. Qed.

(** ** Layers and selected paths of the map viewer *)

Section MapControls.
Context {FileMetadata GeoData : Type}.
Implicit Types (layer : LayerConfig FileMetadata GeoData)
  (prev layers : list (LayerConfig FileMetadata GeoData)).

Lemma toggle_keeps_id (layerId : string) layer :
  layer_id (if decide (layer_id layer = layerId)
            then MapViewer.flip_visible layer else layer) = layer_id layer.
Proof. by case_decide. Qed.

(** X8. [removeLayer] removes from the layer list the layers with the given
    id, all of them, and nothing else: the layers left are those of another
    id, in the order they had. It commutes with [toggleLayerVisibility],
    whatever the two ids; and removing a layer that was appended under an id
    no other layer has gives the list back. *)
Theorem removeLayer_by_id (layerId other : string) prev layer :
  (layer ∈ MapViewer.removeLayer layerId prev
   ↔ layer ∈ prev ∧ layer_id layer ≠ layerId)
  ∧ MapViewer.removeLayer layerId prev `sublist_of` prev
  ∧ MapViewer.removeLayer layerId (MapViewer.toggleLayerVisibility other prev)
    = MapViewer.toggleLayerVisibility other
        (MapViewer.removeLayer layerId prev)
  ∧ (layer_id layer = layerId →
     (∀ l, l ∈ prev → layer_id l ≠ layerId) →
     MapViewer.removeLayer layerId (prev ++ [layer]) = prev).
Proof.
  unfold MapViewer.removeLayer, MapViewer.toggleLayerVisibility.
  split_and!.
  - rewrite list_elem_of_filter. tauto.
  - apply sublist_filter.
  - induction prev as [|l prev IH]; [done|].
    rewrite fmap_cons, !filter_cons, toggle_keeps_id.
    case_decide; [|done]. by rewrite fmap_cons, IH.
  - intros Hid Hfresh. rewrite filter_app, filter_cons, filter_nil.
    rewrite decide_False by (by intros []).
    rewrite app_nil_r. induction prev as [|l prev IH]; [done|].
    rewrite filter_cons, decide_True by (apply Hfresh; left).
    f_equal. apply IH. intros l' Hl'. apply Hfresh. by right.
Qed.
End MapControls.

(** X9. [handleFileSelect] toggles one path: afterwards the path is selected
    if and only if it was not before, and every other path is selected as
    before. A selection without repetition stays so; a second click gives
    back the same set of paths, and the same list when the path was not
    selected at first. *)
Theorem handleFileSelect_toggles (filePath : string)
    (selected : list string) :
  (filePath ∈ MapViewer.handleFileSelect filePath selected
   ↔ filePath ∉ selected)
  ∧ (∀ f, f ≠ filePath →
       (f ∈ MapViewer.handleFileSelect filePath selected ↔ f ∈ selected))
  ∧ (NoDup selected → NoDup (MapViewer.handleFileSelect filePath selected))
  ∧ (NoDup selected →
     MapViewer.handleFileSelect filePath
       (MapViewer.handleFileSelect filePath selected) ≡ₚ selected)
  ∧ (filePath ∉ selected →
     MapViewer.handleFileSelect filePath
       (MapViewer.handleFileSelect filePath selected) = selected).
Proof.
  assert (Hrm : ∀ l : list string, filePath ∉ l →
                  filter (λ f, f ≠ filePath) l = l).
  { intros l Hl. induction l as [|x l IH]; [done|].
    apply not_elem_of_cons in Hl as [Hx Hl].
    rewrite filter_cons, decide_True by done. by rewrite IH. }
  assert (Hout : filePath ∉ filter (λ f, f ≠ filePath) selected).
  { rewrite list_elem_of_filter. tauto. }
  unfold MapViewer.handleFileSelect. split_and!.
  - case_bool_decide as Hin.
    + split; [by intros ?%Hout|done].
    + split; [done|]. intros _. apply elem_of_app. right. left.
  - intros f Hf. case_bool_decide.
    + rewrite list_elem_of_filter. tauto.
    + rewrite elem_of_app, list_elem_of_singleton. tauto.
  - intros Hnd. case_bool_decide as Hin.
    + by apply NoDup_filter.
    + apply NoDup_app. split_and!; [done| |apply NoDup_singleton].
      intros x Hx ->%list_elem_of_singleton. done.
  - intros Hnd. destruct (decide (filePath ∈ selected)) as [Hin|Hin].
    + rewrite (bool_decide_true _ Hin), (bool_decide_false _ Hout).
      apply NoDup_Permutation; [|done|].
      * apply NoDup_app. split_and!;
          [by apply NoDup_filter| |apply NoDup_singleton].
        intros x Hx ->%list_elem_of_singleton. done.
      * intros x. rewrite elem_of_app, list_elem_of_filter,
          list_elem_of_singleton.
        destruct (decide (x = filePath)) as [->|]; tauto.
    + rewrite (bool_decide_false _ Hin).
      rewrite bool_decide_true by (apply elem_of_app; right; left).
      rewrite filter_app, filter_cons, filter_nil, Hrm by done.
      rewrite decide_False by (by intros []). by rewrite app_nil_r.
  - intros Hin. rewrite (bool_decide_false _ Hin).
    rewrite bool_decide_true by (apply elem_of_app; right; left).
    rewrite filter_app, filter_cons, filter_nil, Hrm by done.
    rewrite decide_False by (by intros []). by rewrite app_nil_r.
Qed.

(** ** Zooming to the layers *)

Lemma Qmin_cases x y : Qmin x y = x ∨ Qmin x y = y.
Proof.
  unfold Qmin, GenericMinMax.gmin. destruct (x ?= y)%Q; auto.
Qed.

Lemma Qmax_cases x y : Qmax x y = x ∨ Qmax x y = y.
Proof.
  unfold Qmax, GenericMinMax.gmax. destruct (x ?= y)%Q; auto.
Qed.

Lemma Math_min_le x xs y :
  y ∈ x :: xs → (MapViewer.Math_min x xs <= y)%Q.
Proof.
  unfold MapViewer.Math_min.
  assert (Hhead : ∀ xs x, (foldl Qmin x xs <= x)%Q).
  { clear. induction xs as [|a xs IH]; intros x; simpl; [apply Qle_refl|].
    eapply Qle_trans; [apply IH|]. apply Q.le_min_l. }
  revert x. induction xs as [|a xs IH]; intros x Hy.
  - apply list_elem_of_singleton in Hy as ->. apply Qle_refl.
  - simpl. apply elem_of_cons in Hy as [->|Hy].
    + eapply Qle_trans; [apply Hhead|]. apply Q.le_min_l.
    + apply elem_of_cons in Hy as [->|Hy].
      * eapply Qle_trans; [apply Hhead|]. apply Q.le_min_r.
      * apply IH. by right.
Qed.

Lemma Math_max_le x xs y :
  y ∈ x :: xs → (y <= MapViewer.Math_max x xs)%Q.
Proof.
  unfold MapViewer.Math_max.
  assert (Hhead : ∀ xs x, (x <= foldl Qmax x xs)%Q).
  { clear. induction xs as [|a xs IH]; intros x; simpl; [apply Qle_refl|].
    eapply Qle_trans; [|apply IH]. apply Q.le_max_l. }
  revert x. induction xs as [|a xs IH]; intros x Hy.
  - apply list_elem_of_singleton in Hy as ->. apply Qle_refl.
  - simpl. apply elem_of_cons in Hy as [->|Hy].
    + eapply Qle_trans; [|apply Hhead]. apply Q.le_max_l.
    + apply elem_of_cons in Hy as [->|Hy].
      * eapply Qle_trans; [|apply Hhead]. apply Q.le_max_r.
      * apply IH. by right.
Qed.

Lemma Math_min_elem x xs : MapViewer.Math_min x xs ∈ x :: xs.
Proof.
  unfold MapViewer.Math_min. revert x.
  induction xs as [|a xs IH]; intros x; simpl; [left|].
  specialize (IH (Qmin x a)). apply elem_of_cons in IH as [->|IH].
  - destruct (Qmin_cases x a) as [->| ->]; [left|right; left].
  - by do 2 right.
Qed.

Lemma Math_max_elem x xs : MapViewer.Math_max x xs ∈ x :: xs.
Proof.
  unfold MapViewer.Math_max. revert x.
  induction xs as [|a xs IH]; intros x; simpl; [left|].
  specialize (IH (Qmax x a)). apply elem_of_cons in IH as [->|IH].
  - destruct (Qmax_cases x a) as [->| ->]; [left|right; left].
  - by do 2 right.
Qed.

Section Zoom.
Context {FileMetadata GeoData : Type}.
Context (bounds : FileMetadata → option MapViewer.Bounds).
Implicit Types (layer : LayerConfig FileMetadata GeoData)
  (layers : list (LayerConfig FileMetadata GeoData)).

Lemma has_bounds_omap layers b :
  MapViewer.has_bounds bounds layers b
  ↔ b ∈ omap (λ layer, layer_metadata layer ≫= bounds) layers.
Proof.
  rewrite list_elem_of_omap. split.
  - intros (layer & m & Hin & Hm & Hb). exists layer. by rewrite Hm.
  - intros (layer & Hin & Hb). destruct (layer_metadata layer) as [m|] eqn:Hm;
      [|done]. by exists layer, m.
Qed.

Lemma zoomToLayers_Some mapRef layers box :
  MapViewer.zoomToLayers bounds mapRef layers = Some box →
  mapRef = true
  ∧ ∃ b bs,
      omap (λ layer, layer_metadata layer ≫= bounds) layers = b :: bs
      ∧ box.1.1 = MapViewer.Math_min (MapViewer.bounds_1 b)
                    (MapViewer.bounds_1 <$> bs)
      ∧ box.1.2 = MapViewer.Math_min (MapViewer.bounds_0 b)
                    (MapViewer.bounds_0 <$> bs)
      ∧ box.2.1 = MapViewer.Math_max (MapViewer.bounds_3 b)
                    (MapViewer.bounds_3 <$> bs)
      ∧ box.2.2 = MapViewer.Math_max (MapViewer.bounds_2 b)
                    (MapViewer.bounds_2 <$> bs).
Proof.
  unfold MapViewer.zoomToLayers.
  destruct (bool_decide _ || negb mapRef) eqn:Hguard; [done|].
  apply orb_false_iff in Hguard as [_ Hmap]. apply negb_false_iff in Hmap.
  destruct (omap _ layers) as [|b bs]; [done|].
  intros [= <-]. split; [done|]. by exists b, bs.
Qed.

(** X10. When [zoomToLayers] calls [fitBounds], the box it passes encloses
    the bounds of every layer that has bounds, the hidden layers included,
    and is the smallest such box: each of its four sides is the
    corresponding side of the bounds of some layer. *)
Theorem zoom_box_encloses_layers mapRef layers box :
  MapViewer.zoomToLayers bounds mapRef layers = Some box →
  (∀ b, MapViewer.has_bounds bounds layers b →
     (box.1.2 <= MapViewer.bounds_0 b)%Q ∧ (box.1.1 <= MapViewer.bounds_1 b)%Q
     ∧ (MapViewer.bounds_2 b <= box.2.2)%Q
     ∧ (MapViewer.bounds_3 b <= box.2.1)%Q)
  ∧ (∃ b, MapViewer.has_bounds bounds layers b
          ∧ MapViewer.bounds_0 b = box.1.2)
  ∧ (∃ b, MapViewer.has_bounds bounds layers b
          ∧ MapViewer.bounds_1 b = box.1.1)
  ∧ (∃ b, MapViewer.has_bounds bounds layers b
          ∧ MapViewer.bounds_2 b = box.2.2)
  ∧ (∃ b, MapViewer.has_bounds bounds layers b
          ∧ MapViewer.bounds_3 b = box.2.1).
Proof.
  intros (_ & b0 & bs & Hall & -> & -> & -> & ->)%zoomToLayers_Some.
  assert (Hattained : ∀ (f : MapViewer.Bounds → Q) (v : Q),
            v ∈ f b0 :: (f <$> bs) →
            ∃ b, MapViewer.has_bounds bounds layers b ∧ f b = v).
  { intros f v Hv. change (v ∈ f <$> b0 :: bs) in Hv.
    apply list_elem_of_fmap in Hv as (b & -> & Hb).
    exists b. split; [|done]. apply has_bounds_omap. by rewrite Hall. }
  split_and!.
  - intros b Hb%has_bounds_omap. rewrite Hall in Hb.
    split_and!; [apply Math_min_le|apply Math_min_le|
                 apply Math_max_le|apply Math_max_le];
      by apply (list_elem_of_fmap_2 _ (b0 :: bs)).
  - apply (Hattained MapViewer.bounds_0), Math_min_elem.
  - apply (Hattained MapViewer.bounds_1), Math_min_elem.
  - apply (Hattained MapViewer.bounds_2), Math_max_elem.
  - apply (Hattained MapViewer.bounds_3), Math_max_elem.
Qed.

(** X11. [zoomToLayers] returns without calling [fitBounds] exactly when the
    map is not mounted or no layer has bounds (an empty layer list
    included); and it does not read the visibility of the layers: toggling
    a layer leaves its outcome as it is. *)
Theorem zoom_ignores_visibility mapRef layers (layerId : string) :
  (MapViewer.zoomToLayers bounds mapRef layers = None
   ↔ mapRef = false ∨ ∀ b, ¬ MapViewer.has_bounds bounds layers b)
  ∧ MapViewer.zoomToLayers bounds mapRef
      (MapViewer.toggleLayerVisibility layerId layers)
    = MapViewer.zoomToLayers bounds mapRef layers.
Proof.
  split.
  - unfold MapViewer.zoomToLayers. split.
    + destruct mapRef; [|by left]. intros Hnone. right. intros b Hb.
      apply has_bounds_omap in Hb.
      destruct layers as [|l layers]; [by apply elem_of_nil in Hb|].
      destruct (omap _ (l :: layers)); [by apply elem_of_nil in Hb|].
      simpl in Hnone. done.
    + intros [->|Hno]; [by rewrite orb_true_r|].
      destruct (bool_decide _ || negb mapRef); [done|].
      destruct (omap _ layers) as [|b bs] eqn:Hall; [done|].
      destruct (Hno b). apply has_bounds_omap. rewrite Hall. left.
  - unfold MapViewer.zoomToLayers, MapViewer.toggleLayerVisibility.
    rewrite length_fmap.
    assert (Heq : omap (λ layer, layer_metadata layer ≫= bounds)
                    ((λ layer, if decide (layer_id layer = layerId)
                               then MapViewer.flip_visible layer else layer)
                     <$> layers)
                  = omap (λ layer, layer_metadata layer ≫= bounds) layers).
    { apply list_omap_ext. induction layers as [|l layers IH]; [constructor|].
      rewrite fmap_cons. constructor; [|exact IH]. by case_decide. }
    by rewrite Heq.
Qed.
End Zoom.

Lemma zoom_box_encloses_layers_witness :
  MapViewer.zoomToLayers Some true demo_layers = Some demo_box
  ∧ ∀ b, MapViewer.has_bounds Some demo_layers b →
         (demo_box.1.2 <= MapViewer.bounds_0 b)%Q
         ∧ (demo_box.1.1 <= MapViewer.bounds_1 b)%Q
         ∧ (MapViewer.bounds_2 b <= demo_box.2.2)%Q
         ∧ (MapViewer.bounds_3 b <= demo_box.2.1)%Q.
Proof.
  split; [by vm_compute|].
  apply (zoom_box_encloses_layers Some true demo_layers demo_box).
  by vm_compute.
Defined.

(** ** What an operation needs *)

Lemma operation_needs_raster files t :
  ProcessingPanel.canExecuteOperation files (ProcessingPanel.operation_of t)
  = true →
  (1 ≤ length (ProcessingPanel.rasterFiles files))%nat
  ∧ (t = clip → (1 ≤ length (ProcessingPanel.vectorFiles files))%nat)
  ∧ (t = mosaic → (2 ≤ length (ProcessingPanel.rasterFiles files))%nat).
Proof.
  rewrite canExecuteOperation_spec.
  destruct t; simpl; rewrite ?bool_decide_eq_false; intros [Hr Hv];
    split_and!; try done; lia.
Qed.

(** X12. Every operation needs its inputs uploaded before it can be chosen:
    in every reachable state with an operation selected the process tab is
    shown and at least one raster file is uploaded, a vector file too for
    clip, and two raster files for mosaic. While no raster file is uploaded
    no operation is selected, a click on any operation changes nothing, and
    neither does the execute button. *)
Theorem operations_need_uploaded_inputs s :
  reachable s →
  (∀ t, selectedOperation s = Some t →
     activeTab s = tab_process
     ∧ (1 ≤ length (ProcessingPanel.rasterFiles (uploadedFiles s)))%nat
     ∧ (t = clip →
        (1 ≤ length (ProcessingPanel.vectorFiles (uploadedFiles s)))%nat)
     ∧ (t = mosaic →
        (2 ≤ length (ProcessingPanel.rasterFiles (uploadedFiles s)))%nat))
  ∧ (ProcessingPanel.rasterFiles (uploadedFiles s) = [] →
     selectedOperation s = None
     ∧ (∀ t, step s (EvSelectOperation t) = s)
     ∧ step s EvExecute = s).
Proof.
  intros Hs. pose proof (reachable_panel_inv s Hs) as [Hmounted Hgate].
  split.
  - intros t Hsel. split.
    + destruct (decide (activeTab s = tab_process)) as [|Htab]; [done|].
      destruct (Hmounted Htab) as [Hnone _]. congruence.
    + by apply operation_needs_raster, Hgate.
  - intros Hnone.
    assert (Hcan : ∀ t, ProcessingPanel.canExecuteOperation (uploadedFiles s)
                          (ProcessingPanel.operation_of t) = false).
    { intros t. apply not_true_is_false.
      intros [Hr _]%operation_needs_raster. rewrite Hnone in Hr.
      simpl in Hr. lia. }
    assert (Hsel : selectedOperation s = None).
    { destruct (selectedOperation s) as [t|] eqn:Hsel; [|done].
      specialize (Hgate t eq_refl). by rewrite Hcan in Hgate. }
    split_and!; [done| |].
    + intros t. simpl. case_decide; [|done].
      unfold ProcessingPanel.selectOperation. by rewrite Hcan.
    + simpl. repeat case_match; try done. by apply handleExecute_idle.
Qed.

Lemma operations_need_uploaded_inputs_witness :
  selectedOperation (demo_ready mosaic) = Some mosaic
  ∧ activeTab (demo_ready mosaic) = tab_process
  ∧ (2 ≤ length (ProcessingPanel.rasterFiles
                   (uploadedFiles (demo_ready mosaic))))%nat.
Proof.
  destruct (operations_need_uploaded_inputs (demo_ready mosaic)) as [Hsel _];
    [apply reachable_demo|].
  destruct (Hsel mosaic eq_refl) as (Htab & _ & _ & Htwo).
  split_and!; [reflexivity|exact Htab|by apply Htwo].
Defined.

(** ** Progress, age and pending callbacks of a job *)

Lemma progress_of_status job clock :
  job_ok clock job →
  job_progress job = match job_status job with
                     | pending => 0
                     | processing => 50
                     | _ => 100
                     end.
Proof. by intros []. Qed.

Lemma rtc_forward_cases st st' :
  rtc forward st st' →
  st' = st ∨ st = pending ∨ (st = processing ∧ st' ≠ pending).
Proof.
  induction 1 as [|st1 st2 st3 Hfw _ IH]; [by left|].
  destruct Hfw; destruct IH as [->|[?|[? ?]]]; try done; auto.
Qed.

(** X13. The progress of a job follows its status and never decreases: it
    is 0 while the job is pending, 50 while it is processing and 100 once it
    is completed; a job is not processing before 1000 ms have passed since
    its creation, nor completed before 5000 ms; and over every sequence of
    events the progress stays or grows, while the id, the operation, the
    input files and the creation time stay as they were. *)
Theorem progress_never_decreases s a job :
  reachable s → heap s !! a = Some job →
  (job_progress job = 0 ∧ job_status job = pending
   ∨ job_progress job = 50 ∧ job_status job = processing
     ∧ job_created_at job + 1000 ≤ now s
   ∨ job_progress job = 100 ∧ job_status job = completed
     ∧ job_created_at job + 5000 ≤ now s)
  ∧ job_created_at job ≤ now s
  ∧ ∀ evs, ∃ job',
      heap (run s evs) !! a = Some job'
      ∧ job_progress job ≤ job_progress job'
      ∧ job_id job' = job_id job ∧ job_type job' = job_type job
      ∧ job_input_files job' = job_input_files job
      ∧ job_created_at job' = job_created_at job.
Proof.
  intros Hs Hjob. pose proof (reachable_jobs_inv s Hs) as Hinv.
  pose proof (inv_jobs s Hinv a job Hjob) as Hok.
  split_and!.
  - destruct Hok as [Hnf Hp _ _ _ Hage].
    destruct (job_status job); try done; rewrite Hp;
      [left|right; left|right; right]; split_and!; try done; lia.
  - by apply (job_ok_created (now s)).
  - intros evs.
    destruct (run_job s evs a job Hinv Hjob)
      as (job' & Hjob' & Hrtc & F1 & F2 & F3 & F4).
    exists job'. split_and!; try done.
    pose proof (inv_jobs _ (reachable_jobs_inv _ (reachable_run s evs Hs))
                  a job' Hjob') as Hok'.
    rewrite (progress_of_status job _ Hok), (progress_of_status job' _ Hok').
    destruct Hok as [Hnf _ _ _ _ _]. destruct Hok' as [Hnf' _ _ _ _ _].
    destruct (rtc_forward_cases _ _ Hrtc) as [->|[->|[-> Hnp]]]; [done| |].
    + destruct (job_status job'); lia.
    + destruct (job_status job'); try done; lia.
Qed.

Lemma progress_never_decreases_witness :
  job_created_at (demo_job resample) ≤ now (demo_submitted resample)
  ∧ ∃ job',
      heap (run (demo_submitted resample) [EvTick 1000; EvTimer]) !! 0%nat
      = Some job'
      ∧ job_progress (demo_job resample) ≤ job_progress job'
      ∧ job_id job' = job_id (demo_job resample)
      ∧ job_type job' = job_type (demo_job resample)
      ∧ job_input_files job' = job_input_files (demo_job resample)
      ∧ job_created_at job' = job_created_at (demo_job resample).
Proof.
  destruct (progress_never_decreases (demo_submitted resample) 0
              (demo_job resample)) as (_ & Hage & Hrun).
  - apply reachable_demo.
  - reflexivity.
  - split; [exact Hage|]. apply (Hrun [EvTick 1000; EvTimer]).
Defined.

(** X14. The pending callbacks are exactly those the jobs still wait for:
    the callback due 1000 ms after the creation of a job is pending if and
    only if the job is pending, the one due 5000 ms after it if and only if
    the job is not completed yet; no other callback refers to the job, and
    no callback is registered twice. *)
Theorem callbacks_match_status s a job :
  reachable s → heap s !! a = Some job →
  (mkTimer (job_created_at job + 1000) a Start ∈ timers s
   ↔ job_status job = pending)
  ∧ (mkTimer (job_created_at job + 5000) a Finish ∈ timers s
     ↔ job_status job ≠ completed)
  ∧ (∀ t, t ∈ timers s → target t = a →
       t = mkTimer (job_created_at job + 1000) a Start
       ∨ t = mkTimer (job_created_at job + 5000) a Finish)
  ∧ NoDup (timers s).
Proof.
  intros Hs Hjob. pose proof (reachable_jobs_inv s Hs) as Hinv.
  pose proof (inv_jobs s Hinv a job Hjob) as [Hnf _ _ _ _ _].
  split_and!.
  - rewrite (inv_timers s Hinv). unfold awaited. simpl. split.
    + intros (j & Hj & _ & Hw). simplify_eq. by destruct (job_status job).
    + intros Hst. exists job. by rewrite Hst.
  - rewrite (inv_timers s Hinv). unfold awaited. simpl. split.
    + intros (j & Hj & _ & Hw). simplify_eq. by destruct (job_status job).
    + intros Hst. exists job. split_and!; [done..|].
      by destruct (job_status job).
  - intros [d a' k] (j & Hj & Hdue & _)%(inv_timers s Hinv) Ha.
    simpl in *. simplify_eq. destruct k; [by left|by right].
  - apply (inv_nodup s Hinv).
Qed.

Lemma callbacks_match_status_witness :
  (mkTimer (job_created_at (demo_job resample) + 1000) 0 Start
     ∈ timers (demo_submitted resample)
   ↔ job_status (demo_job resample) = pending)
  ∧ (mkTimer (job_created_at (demo_job resample) + 5000) 0 Finish
       ∈ timers (demo_submitted resample)
     ↔ job_status (demo_job resample) ≠ completed).
Proof.
  destruct (callbacks_match_status (demo_submitted resample) 0
              (demo_job resample)) as (H1 & H2 & _).
  - apply reachable_demo.
  - reflexivity.
  - by split.
Defined.

(** ** Loading files into the map *)

Lemma split_slash_spec s :
  ∃ init seg,
    MapViewer.split_slash s = init ++ [seg]
    ∧ MapViewer.has_slash seg = false
    ∧ (init = [] → s = seg)
    ∧ (init ≠ [] → ∃ dir, s = (dir +:+ "/" +:+ seg)%string).
Proof.
  induction s as [|c s (init & seg & Hsplit & Hseg & Hone & Hmore)].
  - by exists [], ""%string.
  - simpl. case_decide as Hc.
    + subst c. exists (""%string :: init), seg. rewrite Hsplit.
      split_and!; [done..|]. intros _.
      destruct init as [|y ys].
      * exists ""%string. by rewrite Hone.
      * destruct Hmore as [dir ->]; [done|]. by exists (String "/" dir).
    + rewrite Hsplit. destruct init as [|y ys]; simpl.
      * exists [], (String c seg). simpl.
        rewrite bool_decide_false by done. split_and!; try done.
        intros _. by rewrite Hone.
      * exists (String c y :: ys), seg. split_and!; try done.
        intros _. destruct Hmore as [dir ->]; [done|]. by exists (String c dir).
Qed.

(** X15. The name a layer gets from [loadFileData] is the base name of the
    file: the part of the path after its last ['/'], or the whole path when
    there is no ['/'] or nothing follows the last one. So the name of a
    non-empty path is not empty, and it holds a ['/'] only when the path
    ends with one (the name is then the whole path). *)
Theorem layer_name_is_base_name (filePath : string) :
  (filePath ≠ ""%string → MapViewer.layerName filePath ≠ ""%string)
  ∧ (MapViewer.layerName filePath = filePath
     ∨ ∃ dir, filePath = (dir +:+ "/" +:+ MapViewer.layerName filePath)%string)
  ∧ (MapViewer.has_slash filePath = false →
     MapViewer.layerName filePath = filePath)
  ∧ (MapViewer.has_slash (MapViewer.layerName filePath) = true →
     MapViewer.layerName filePath = filePath
     ∧ ∃ dir, filePath = (dir +:+ "/")%string).
Proof.
  destruct (split_slash_spec filePath)
    as (init & seg & Hsplit & Hseg & Hone & Hmore).
  unfold MapViewer.layerName. rewrite Hsplit, last_snoc.
  assert (Hplain : ∀ dir s, MapViewer.has_slash (dir +:+ "/" +:+ s) = true).
  { intros dir s. induction dir as [|c dir IH]; simpl; [done|].
    rewrite IH. apply orb_true_r. }
  case_decide as Hempty.
  - split_and!; [done|by left|done|]. intros Hslash. split; [done|].
    destruct init as [|y ys].
    + by rewrite (Hone eq_refl), Hempty in Hslash.
    + destruct Hmore as [dir ->]; [done|]. exists dir. by rewrite Hempty.
  - split_and!; [done| | |by rewrite Hseg].
    + destruct init as [|y ys]; [left; by rewrite Hone|right; by apply Hmore].
    + intros Hno. destruct init as [|y ys]; [by rewrite Hone|].
      destruct Hmore as [dir ->]; [done|]. by rewrite Hplain in Hno.
Qed.

Section LoadingProofs.
Context {FileMetadata GeoData : Type}.
Context (getFileMetadata : string → option FileMetadata).
Context (getFilePreview : string → option GeoData).
Context (metadata_type : FileMetadata → FileKind).
Abbreviation loadFileData :=
  (MapViewer.loadFileData getFileMetadata getFilePreview metadata_type).
Abbreviation load_each :=
  (MapViewer.load_each getFileMetadata getFilePreview metadata_type).
Abbreviation loads :=
  (MapViewer.loads getFileMetadata getFilePreview metadata_type).
Implicit Types (layers : list (LayerConfig FileMetadata GeoData)).

Lemma loadFileData_cases (id filePath : string) :
  (loadFileData id filePath = None ∧ loads filePath = false)
  ∨ ∃ metadata layerData,
      loads filePath = true
      ∧ loadFileData id filePath
        = Some (λ prev, prev ++ [MapViewer.layerConfig metadata_type id filePath
                                   metadata layerData]).
Proof.
  unfold MapViewer.loads, MapViewer.loadFileData.
  destruct (getFileMetadata filePath) as [metadata|]; simpl; [|by left].
  case_decide; simpl; [|right; by exists metadata, None].
  destruct (getFilePreview filePath) as [g|]; simpl; [|by left].
  right. by exists metadata, (Some g).
Qed.

Lemma load_each_spec id_of files i layers :
  layers `prefix_of` load_each id_of i files layers
  ∧ layer_filePath <$> load_each id_of i files layers
    = (layer_filePath <$> layers) ++ filter (λ p, loads p = true) files
  ∧ ∀ l, l ∈ load_each id_of i files layers →
         l ∈ layers
         ∨ (layer_visible l = true
            ∧ layer_name l = MapViewer.layerName (layer_filePath l)
            ∧ layer_filePath l ∈ files).
Proof.
  revert i layers. induction files as [|p files IH]; intros i layers; simpl.
  - rewrite filter_nil, app_nil_r. split_and!; [done|done|]. by left.
  - rewrite filter_cons.
    destruct (loadFileData_cases (id_of i) p)
      as [[-> Hno]|(metadata & layerData & Hyes & ->)].
    + rewrite decide_False by (by rewrite Hno).
      destruct (IH (S i) layers) as (Hpre & Hpaths & Hnew).
      split_and!; [done..|]. intros l Hl.
      destruct (Hnew l Hl) as [?|(? & ? & ?)]; [by left|right].
      split_and!; [done..|]. by right.
    + rewrite decide_True by done.
      destruct (IH (S i) (layers ++ [MapViewer.layerConfig metadata_type
                                       (id_of i) p metadata layerData]))
        as (Hpre & Hpaths & Hnew).
      split_and!.
      * etrans; [|exact Hpre]. by apply prefix_app_r.
      * rewrite Hpaths, fmap_app, <- (assoc_L (++)). done.
      * intros l Hl. destruct (Hnew l Hl) as [Hold|(? & ? & ?)].
        -- apply elem_of_app in Hold as [?|Hl'%list_elem_of_singleton];
             [by left|right]. subst l. simpl. split_and!; [done..|left].
        -- right. split_and!; [done..|]. by right.
Qed.

(** X16. [addSelectedFilesToMap] puts no file on the map twice. With no
    path selected twice and no two layers of the same file, it leaves the
    selection empty, keeps the layers there were, in place, and adds one
    layer behind them for each selected path that has no layer yet and
    whose requests are answered, skipping a path whose request fails
    without giving up the others; no two layers are of the same file
    afterwards. Each layer added is visible and named by the base name of
    its file. *)
Theorem selected_files_load_once id_of (selected : list string) layers :
  NoDup selected → NoDup (layer_filePath <$> layers) →
  let after :=
    MapViewer.addSelectedFilesToMap getFileMetadata getFilePreview
      metadata_type id_of selected layers in
  after.2 = []
  ∧ layers `prefix_of` after.1
  ∧ NoDup (layer_filePath <$> after.1)
  ∧ (∀ p, p ∈ layer_filePath <$> after.1
          ↔ p ∈ layer_filePath <$> layers ∨ (p ∈ selected ∧ loads p = true))
  ∧ (∀ l, l ∈ after.1 →
          l ∈ layers
          ∨ (layer_visible l = true
             ∧ layer_name l = MapViewer.layerName (layer_filePath l)
             ∧ layer_filePath l ∈ selected)).
Proof.
  intros Hsel Hlayers. unfold MapViewer.addSelectedFilesToMap. simpl.
  destruct (load_each_spec id_of (MapViewer.filesToLoad selected layers) 0
              layers) as (Hpre & Hpaths & Hnew).
  split_and!; [done|done| | |].
  - rewrite Hpaths. apply NoDup_app. split_and!; [done| |].
    + intros p Hp (_ & Hin)%list_elem_of_filter.
      by apply list_elem_of_filter in Hin as [Hout _].
    + by do 2 apply NoDup_filter.
  - intros p. rewrite Hpaths, elem_of_app.
    unfold MapViewer.filesToLoad. rewrite !list_elem_of_filter.
    destruct (decide (p ∈ layer_filePath <$> layers)); tauto.
  - intros l Hl. destruct (Hnew l Hl) as [?|(? & ? & Hin)]; [by left|right].
    split_and!; [done..|].
    by apply list_elem_of_filter in Hin as [_ ?].
Qed.
End LoadingProofs.

Lemma selected_files_load_once_witness :
  NoDup demo_selected
  ∧ NoDup (layer_filePath <$> demo_layers)
  ∧ demo_added.2 = []
  ∧ demo_layers `prefix_of` demo_added.1
  ∧ NoDup (layer_filePath <$> demo_added.1).
Proof.
  assert (Hsel : NoDup demo_selected)
    by (apply (bool_decide_unpack _); by vm_compute).
  assert (Hlayers : NoDup (layer_filePath <$> demo_layers))
    by (apply (bool_decide_unpack _); by vm_compute).
  destruct (selected_files_load_once demo_getFileMetadata (λ _, Some ())
              (λ _, raster) (λ i, "layer_" +:+ pretty i)%string
              demo_selected demo_layers Hsel Hlayers)
    as (Hnone & Hpre & Hnd & _).
  by split_and!.
Defined.

(** The new file gets a layer, the unreadable one does not, and the file
    that has a layer gets no second one. *)
Example demo_added_paths :
  layer_filePath <$> demo_added.1
  = ["uploads/a.tif"; "uploads/b.geojson"; "uploads/c.tif";
     "uploads/d.tif"]%string
  ∧ layer_name <$> demo_added.1
    = ["a.tif"; "b.geojson"; "c.tif"; "d.tif"]%string.
Proof. by vm_compute. Qed.

(** ** The kind of an uploaded file *)

Lemma lower_idemp c :
  UploadZone.lower (UploadZone.lower c) = UploadZone.lower c.
Proof. by destruct c as [[] [] [] [] [] [] [] []]. Qed.

Lemma toLowerCase_idemp s :
  UploadZone.toLowerCase (UploadZone.toLowerCase s) = UploadZone.toLowerCase s.
Proof.
  induction s as [|c s IH]; simpl; [done|]. by rewrite lower_idemp, IH.
Qed.

(** No extension of the one list ends with a dot and an extension of the
    other. *)
Lemma extensions_apart :
  Forall (λ r, Forall (λ v,
    ¬ UploadZone.chars ("." +:+ r) `suffix_of` UploadZone.chars ("." +:+ v)
    ∧ ¬ UploadZone.chars ("." +:+ v) `suffix_of` UploadZone.chars ("." +:+ r))
    UploadZone.vectorExtensions) UploadZone.rasterExtensions.
Proof. apply (bool_decide_unpack _). by vm_compute. Qed.

Lemma matches_exclusive s :
  ¬ (Exists (UploadZone.ends_with s) UploadZone.rasterExtensions
     ∧ Exists (UploadZone.ends_with s) UploadZone.vectorExtensions).
Proof.
  intros [(r & Hr & Hsr)%Exists_exists (v & Hv & Hsv)%Exists_exists].
  pose proof extensions_apart as Hapart.
  rewrite Forall_forall in Hapart. specialize (Hapart r Hr).
  rewrite Forall_forall in Hapart. destruct (Hapart v Hv) as [H1 H2].
  destruct (suffix_weak_total _ _ _ Hsr Hsv); done.
Qed.

(** X17. The kind [onDrop] gives an uploaded file is decided by the
    extension of its name alone, the case of the letters ignored: for a name
    of ASCII characters the kind is raster exactly when the lower-case name
    ends with .tif, .tiff, .geotiff, .jpg, .jpeg or .png, vector exactly
    when it ends with .shp, .geojson, .gpkg, .kml or .kmz (no name does
    both, so the order of the two tests is immaterial), and the file is
    refused with the message of the error exactly when it ends with none of
    them. *)
Theorem file_kind_by_extension name :
  UploadZone.is_ascii name →
  (UploadZone.classify name = inr raster
   ↔ Exists (UploadZone.ends_with (UploadZone.toLowerCase name))
       UploadZone.rasterExtensions)
  ∧ (UploadZone.classify name = inr vector
     ↔ Exists (UploadZone.ends_with (UploadZone.toLowerCase name))
         UploadZone.vectorExtensions)
  ∧ (UploadZone.classify name = inl "Formato de arquivo não suportado"%string
     ↔ ¬ Exists (UploadZone.ends_with (UploadZone.toLowerCase name))
           (UploadZone.rasterExtensions ++ UploadZone.vectorExtensions))
  ∧ UploadZone.classify (UploadZone.toLowerCase name)
    = UploadZone.classify name.
Proof.
  intros _.
  pose proof (matches_exclusive (UploadZone.toLowerCase name)) as Hex.
  unfold UploadZone.classify, UploadZone.matches.
  rewrite toLowerCase_idemp, Exists_app.
  do 2 case_bool_decide; simpl; split_and!; try done; try tauto;
    split; try done; tauto.
Qed.

Lemma file_kind_by_extension_witness :
  UploadZone.is_ascii "Ortho.TIFF"
  ∧ UploadZone.classify "Ortho.TIFF" = inr raster.
Proof.
  split; [apply (bool_decide_unpack _); by vm_compute|].
  destruct (file_kind_by_extension "Ortho.TIFF") as (Hraster & _).
  - apply (bool_decide_unpack _). by vm_compute.
  - apply Hraster. apply (bool_decide_unpack _). by vm_compute.
Defined.
